(** * Verification of the LXMF vanity address generator (main.go)

    Shallow embedding of the Go program [main.go]: key generation, address
    derivation, nibble pattern matching, input validation, the worker loop and
    its coordination through the shared counters and the result channel, and
    the identity file writer.

    Data representation:
    - a Go [byte] is a [Z] in [0, 256); a [[n]byte] array or a [[]byte] slice
      is a [list Z] (fixed arrays are created zero-filled, as Go does);
    - a Go [string] is a Rocq [string] (its bytes);
    - a Go [int] is a [Z]; the [uint64] attempt counter is a [Z] reduced
      modulo 2^64 on every increment, as [atomic.AddUint64] wraps;
    - the cryptographic primitives [sha256.Sum256], [curve25519.ScalarBaseMult]
      and the public key of [ed25519.NewKeyFromSeed] are library functions,
      taken as parameters of the development;
    - [crypto/rand.Read] is the one of Go 1.24 and later: it never returns an
      error, and when the system's random source fails it ends the program
      with a fatal error (exit status 2);
    - the answers of the operating system to [os.Create] and [File.Write]
      are parameters, functions of the file system and the call. *)

From Stdlib Require Import ZArith Lia.
From Stdlib Require Floats.SpecFloat.
From stdpp Require Import base list gmap strings pretty.

Open Scope Z_scope.

(* ------------------------------------------------------------------ *)
(** ** Go byte arrays and [copy] *)

(** A zero-initialised [[n]byte]. *)
Definition zeros (n : nat) : list Z := replicate n 0.

(** [copy(dst, src)]: overwrites the first [min(len dst, len src)] elements
    of [dst] with those of [src]; the rest of [dst] is left as it was. *)
Fixpoint go_copy (dst src : list Z) : list Z :=
  match dst, src with
  | _ :: ds, s :: ss => s :: go_copy ds ss
  | _, [] => dst
  | [], _ => []
  end.

(** [s[lo:hi]] for [0 <= lo <= hi <= len s]. *)
Definition slice (s : list Z) (lo hi : nat) : list Z := take (hi - lo) (drop lo s).

(** [copy(dst[lo:hi], src)]: a copy into a sub-slice of an array. *)
Definition copy_into (dst : list Z) (lo hi : nat) (src : list Z) : list Z :=
  take lo dst ++ go_copy (slice dst lo hi) src ++ drop hi dst.

(** The bytes of a Go string literal. *)
Definition string_bytes (s : string) : list Z :=
  map (fun c => Z.of_nat (Ascii.nat_of_ascii c)) (String.list_ascii_of_string s).

(* ------------------------------------------------------------------ *)
(** ** The identity record *)

(** [type Identity struct]: six fixed-size byte arrays. *)
Record Identity := mkIdentity {
  X25519Private : list Z;  (* [32]byte *)
  X25519Public  : list Z;  (* [32]byte *)
  Ed25519Seed   : list Z;  (* [32]byte *)
  Ed25519Public : list Z;  (* [32]byte *)
  Hash          : list Z;  (* [16]byte *)
  Address       : list Z   (* [16]byte *)
}.

(** The empty [var identity Identity]. *)
Definition zero_identity : Identity :=
  mkIdentity (zeros 32) (zeros 32) (zeros 32) (zeros 32) (zeros 16) (zeros 16).

(* ------------------------------------------------------------------ *)
(** ** clampX25519 *)

(** [func clampX25519(privateKey *[32]byte)]: three in-place byte updates. *)
Definition clampX25519 (k : list Z) : list Z :=
  let k := <[0%nat := Z.land (k !!! 0%nat) 248]> k in    (* privateKey[0] &= 248 *)
  let k := <[31%nat := Z.land (k !!! 31%nat) 127]> k in  (* privateKey[31] &= 127 *)
  <[31%nat := Z.lor (k !!! 31%nat) 64]> k.               (* privateKey[31] |= 64 *)

(* ------------------------------------------------------------------ *)
(** ** Key generation and address derivation (body of [worker]) *)

Section Crypto.

(** [sha256.Sum256], [curve25519.ScalarBaseMult] and
    [ed25519.NewKeyFromSeed(seed).Public()]. *)
Variable sha256 : list Z -> list Z.
Variable scalarBaseMult : list Z -> list Z.
Variable ed25519Public : list Z -> list Z.

(** [nameHashFull := sha256.Sum256([]byte("lxmf.delivery")); nameHash := nameHashFull[:10]] *)
Definition nameHash : list Z := slice (sha256 (string_bytes "lxmf.delivery")) 0 10.

(** Lines 197-211 of [worker]: the identity hash and the LXMF address
    computed from the two public keys. *)
Definition deriveAddress (x25519Pub ed25519Pub : list Z) : list Z * list Z :=
  let publicKey := copy_into (zeros 64) 0 32 x25519Pub in
  let publicKey := copy_into publicKey 32 64 ed25519Pub in
  let identityHashFull := sha256 publicKey in
  let hash := go_copy (zeros 16) (slice identityHashFull 0 16) in
  let addrHashMaterial := copy_into (zeros 26) 0 10 nameHash in
  let addrHashMaterial := copy_into addrHashMaterial 10 26 hash in
  let addrHashFull := sha256 addrHashMaterial in
  let address := go_copy (zeros 16) (slice addrHashFull 0 16) in
  (hash, address).

(** Lines 187-211 of [worker]: the identity built from the 64 random bytes
    [randBuf] of one iteration. *)
Definition makeIdentity (randBuf : list Z) : Identity :=
  let priv := go_copy (zeros 32) (slice randBuf 0 32) in
  let seed := go_copy (zeros 32) (slice randBuf 32 64) in
  let priv := clampX25519 priv in
  (* curve25519.ScalarBaseMult(&identity.X25519Public, &identity.X25519Private) *)
  let xpub := go_copy (zeros 32) (scalarBaseMult priv) in
  (* generateEd25519Public(&identity) *)
  let epub := go_copy (zeros 32) (ed25519Public seed) in
  let '(hash, address) := deriveAddress xpub epub in
  mkIdentity priv xpub seed epub hash address.

(** The derivation as the spec words it: truncated SHA-256 of the
    concatenations. *)
Definition spec_name_hash : list Z := take 10 (sha256 (string_bytes "lxmf.delivery")).
Definition spec_fingerprint (xpub epub : list Z) : list Z := take 16 (sha256 (xpub ++ epub)).
Definition spec_address (fingerprint : list Z) : list Z :=
  take 16 (sha256 (spec_name_hash ++ fingerprint)).

End Crypto.

(* ------------------------------------------------------------------ *)
(** ** isHex, strings.ToLower, hexToNibbles *)

Definition is_digit (c : Z) : bool := (48 <=? c) && (c <=? 57).     (* '0'..'9' *)
Definition is_lower_hex (c : Z) : bool := (97 <=? c) && (c <=? 102). (* 'a'..'f' *)
Definition is_upper_hex (c : Z) : bool := (65 <=? c) && (c <=? 70).  (* 'A'..'F' *)

(** [func isHex(s string) bool]. The Go loop ranges over the runes of [s]:
    an ASCII byte decodes to itself and every byte >= 0x80 belongs to a rune
    >= 0x80 (or to U+FFFD for invalid UTF-8), none of which is a hex digit,
    so testing the runes is testing the bytes. *)
Definition isHex (s : string) : bool :=
  forallb (fun c => is_digit c || is_lower_hex c || is_upper_hex c) (string_bytes s).

(** [strings.ToLower] on an ASCII string (its ASCII fast path): 'A'..'Z'
    become 'a'..'z'. [main] only lowercases inputs that passed [isHex]. *)
Definition toLower (s : string) : list Z :=
  map (fun c => if (65 <=? c) && (c <=? 90) then c + 32 else c) (string_bytes s).

(** The loop of [hexToNibbles] from index [i], [fuel] iterations left. *)
Fixpoint hexToNibbles_loop (s nibbles : list Z) (i fuel : nat) : list Z :=
  match fuel with
  | O => nibbles
  | S f =>
      let c := s !!! i in
      let nibbles :=
        if is_digit c then <[i := c - 48]> nibbles            (* c - '0' *)
        else if is_lower_hex c then <[i := c - 97 + 10]> nibbles (* c - 'a' + 10 *)
        else nibbles in
      hexToNibbles_loop s nibbles (S i) f
  end.

(** [func hexToNibbles(s string) []byte], on the bytes of [s]. *)
Definition hexToNibbles (s : list Z) : list Z :=
  hexToNibbles_loop s (zeros (length s)) 0 (length s).

(* ------------------------------------------------------------------ *)
(** ** validateInputs *)

(** [func validateInputs() error]: [None] is a nil error. *)
Definition validateInputs (prefix postfix : string) (workers : Z) : option string :=
  if negb (String.eqb prefix "") && (32 <? Z.of_nat (String.length prefix))
  then Some "prefix must be 1-32 hex characters" else
  if negb (String.eqb prefix "") && negb (isHex prefix)
  then Some "prefix must contain only hex characters [0-9a-fA-F]" else
  if negb (String.eqb postfix "") && (32 <? Z.of_nat (String.length postfix))
  then Some "postfix must be 1-32 hex characters" else
  if negb (String.eqb postfix "") && negb (isHex postfix)
  then Some "postfix must contain only hex characters [0-9a-fA-F]" else
  if String.eqb prefix "" && String.eqb postfix ""
  then Some "at least one of --prefix or --postfix must be specified" else
  if workers <? 1 then Some "workers must be at least 1" else
  None.

(** The configuration errors as the spec lists them: a pattern with a
    character outside "0123456789abcdefABCDEF", a pattern longer than 32
    characters, both patterns empty, fewer than one worker. *)
Definition hex_chars : list Z := string_bytes "0123456789abcdefABCDEF".

Definition spec_config_invalid (prefix postfix : string) (workers : Z) : Prop :=
  (exists c, c ∈ string_bytes prefix /\ c ∉ hex_chars) \/
  (32 < String.length prefix)%nat \/
  (exists c, c ∈ string_bytes postfix /\ c ∉ hex_chars) \/
  (32 < String.length postfix)%nat \/
  (prefix = "" /\ postfix = "") \/
  workers < 1.

(** Lines 70-79 of [main]: the nibble patterns parsed from validated input
    ([prefixNibbles] stays nil when the flag is empty). *)
Definition parsePattern (s : string) : list Z :=
  if String.eqb s "" then [] else hexToNibbles (toLower s).

(** The nibble of a character as the parsing is described: '0'..'9' and
    'a'..'f' give their hex value, every other character gives 0. *)
Definition spec_lower_nibble (c : Z) : Z :=
  if (48 <=? c) && (c <=? 57) then c - 48
  else if (97 <=? c) && (c <=? 102) then c - 87
  else 0.

(** The value of a hex digit of either case. *)
Definition hex_digit_value (c : Z) : Z :=
  if (48 <=? c) && (c <=? 57) then c - 48
  else if (97 <=? c) && (c <=? 102) then c - 87
  else if (65 <=? c) && (c <=? 70) then c - 55
  else 0.

(* ------------------------------------------------------------------ *)
(** ** matchesPattern *)

(** Reading nibble [nibbleIdx] of [addr] as both loops of [matchesPattern]
    do: [byteIdx := nibbleIdx / 2] (Go's truncating division), high nibble
    when [nibbleIdx % 2 == 0], low nibble otherwise. [None] is the panic of
    an out-of-range index. *)
Definition nibbleAt (addr : list Z) (nibbleIdx : Z) : option Z :=
  let byteIdx := Z.quot nibbleIdx 2 in
  if byteIdx <? 0 then None else
  match addr !! Z.to_nat byteIdx with
  | None => None
  | Some b =>
      if Z.rem nibbleIdx 2 =? 0 then Some (Z.land (Z.shiftr b 4) 15)
      else Some (Z.land b 15)
  end.

(** [for i := 0; i < len(nibbles); i++ { ... if nibble != nibbles[i] { return false } }],
    reading nibble [start + i] of the address; [Some true] when the loop
    runs to its end. *)
Fixpoint nibbleLoop (addr nibbles : list Z) (start : Z) (i fuel : nat) : option bool :=
  match fuel with
  | O => Some true
  | S f =>
      match nibbleAt addr (start + Z.of_nat i), nibbles !! i with
      | Some nibble, Some p =>
          if negb (nibble =? p) then Some false
          else nibbleLoop addr nibbles start (S i) f
      | _, _ => None
      end
  end.

(** [func matchesPattern(addr []byte) bool], with the globals
    [prefixNibbles] and [postfixNibbles] as arguments. *)
Definition matchesPattern (prefixNibbles postfixNibbles addr : list Z) : option bool :=
  let prefixOk :=
    if (0 <? length prefixNibbles)%nat
    then nibbleLoop addr prefixNibbles 0 0 (length prefixNibbles)
    else Some true in
  match prefixOk with
  | None => None
  | Some false => Some false
  | Some true =>
      if (0 <? length postfixNibbles)%nat then
        let addrLen := Z.of_nat (length addr) * 2 in
        let startNibble := addrLen - Z.of_nat (length postfixNibbles) in
        nibbleLoop addr postfixNibbles startNibble 0 (length postfixNibbles)
      else Some true
  end.

(** The match as the spec words it: nibble [k] of a 16-byte address is the
    high nibble of byte [k/2] for even [k], the low nibble otherwise. *)
Definition spec_nibble (addr : list Z) (k : nat) : Z :=
  let b := addr !!! (k / 2)%nat in
  if Nat.even k then b / 16 else b mod 16.

Definition spec_matches (prefixNibbles suffixNibbles addr : list Z) : Prop :=
  (forall i, (i < length prefixNibbles)%nat ->
     spec_nibble addr i = prefixNibbles !!! i) /\
  (forall j, (j < length suffixNibbles)%nat ->
     spec_nibble addr (32 - length suffixNibbles + j)%nat = suffixNibbles !!! j).

(* ------------------------------------------------------------------ *)
(** ** The worker loop and the coordinator *)

(** The process-wide state shared by the goroutines: [totalAttempts]
    (uint64), [found] (uint32) and the buffered channel
    [resultChan := make(chan *Identity, 1)], whose one slot is empty or holds
    an identity. *)
Record Shared := mkShared {
  totalAttempts : Z;
  found : Z;
  resultChan : option Identity
}.

Definition uint64_modulus : Z := 2 ^ 64.

(** [atomic.AddUint64(&totalAttempts, 1)]. *)
Definition addAttempt (s : Shared) : Shared :=
  mkShared ((totalAttempts s + 1) mod uint64_modulus) (found s) (resultChan s).

(** [select { case resultChan <- &identity: default: }]: the send succeeds
    (second component [true]) when the slot is empty, and is dropped
    otherwise. *)
Definition trySend (v : Identity) (ch : option Identity) : option Identity * bool :=
  match ch with
  | None => (Some v, true)
  | Some w => (Some w, false)
  end.

(** What one pass of the worker's [for] body ends in. *)
Inductive WorkerStep :=
  | WLoop                (* next iteration *)
  | WReturn (sent : bool) (* [return]; [sent] when this pass put a value in the channel *)
  | WPanic               (* index out of range in [matchesPattern] *)
  | WFatal.              (* [rand.Read] could not read: fatal error, the program ends *)

Section Search.

Variable sha256 : list Z -> list Z.
Variable scalarBaseMult : list Z -> list Z.
Variable ed25519Public : list Z -> list Z.
(** The parsed patterns [prefixNibbles] and [postfixNibbles]. *)
Variable prefixNibbles postfixNibbles : list Z.

(** One pass of the [for] loop of [worker]. [draw] is what the system's
    random source gives [rand.Read(randBuf[:])]: [Some randBuf] for the 64
    bytes read, [None] when it cannot supply them. [crypto/rand.Read] never
    returns an error (Go 1.24 and later): on such a failure it ends the
    program with a fatal error, so the [continue] of the [err != nil]
    branch is never reached. *)
Definition workerIter (draw : option (list Z)) (s : Shared) : Shared * WorkerStep :=
  if found s =? 1 then (s, WReturn false) else
  match draw with
  | None => (s, WFatal)                                 (* fatal error in rand.Read *)
  | Some randBuf =>
      let identity := makeIdentity sha256 scalarBaseMult ed25519Public randBuf in
      let s := addAttempt s in
      match matchesPattern prefixNibbles postfixNibbles (Address identity) with
      | None => (s, WPanic)
      | Some false => (s, WLoop)
      | Some true =>
          let '(ch, sent) := trySend identity (resultChan s) in
          (mkShared (totalAttempts s) (found s) ch, WReturn sent)
      end
  end.

(** A worker running on its own for [n] passes, drawing [draws k] at pass
    [k]; the status is [WLoop] while it is still in its loop. *)
Fixpoint runWorker (draws : nat -> option (list Z)) (k n : nat) (s : Shared)
    : Shared * WorkerStep :=
  match n with
  | O => (s, WLoop)
  | S n' =>
      match workerIter (draws k) s with
      | (s', WLoop) => runWorker draws (S k) n' s'
      | r => r
      end
  end.

(** A goroutine of the worker pool: running its loop, returned, panicked
    (index out of range), or stopped in the fatal error of [rand.Read]. A
    panic or a fatal error in any goroutine ends the whole program. *)
Inductive WStatus := Running | Done | Crashed | Aborted.

(** No goroutine has ended the program. *)
Definition alive (ws : list WStatus) : Prop :=
  Forall (fun st => st = Running \/ st = Done) ws.

(** The main goroutine after spawning the workers: waiting on
    [identity := <-resultChan], about to [atomic.StoreUint32(&found, 1)],
    in [wg.Wait()], returned. *)
Inductive CoordState :=
  | CRecv
  | CStore (v : Identity)
  | CJoin (v : Identity)
  | CReturned (v : Identity).

(** The whole program: the shared state, the workers, the main goroutine,
    and two ghost fields: the identities accepted by the channel, in order,
    and the number of completed iterations (those that got their random
    bytes). *)
Record World := mkWorld {
  shared : Shared;
  workers : list WStatus;
  coord : CoordState;
  accepted : list Identity;
  iterations : nat
}.

Definition initWorld (n : nat) : World :=
  mkWorld (mkShared 0 0 None) (replicate n Running) CRecv [] 0.

Definition statusOf (r : WorkerStep) : WStatus :=
  match r with
  | WLoop => Running | WReturn _ => Done | WPanic => Crashed | WFatal => Aborted
  end.

(** Interleaving semantics: one worker pass or one step of [main], while
    the program is still running. *)
Inductive step : World -> World -> Prop :=
  | step_worker w i draw s' r :
      alive (workers w) ->
      workers w !! i = Some Running ->
      workerIter draw (shared w) = (s', r) ->
      step w (mkWorld s' (<[i := statusOf r]> (workers w)) (coord w)
                (accepted w ++
                   match r with
                   | WReturn true =>
                       match resultChan s' with Some v => [v] | None => [] end
                   | _ => []
                   end)
                (if (found (shared w) =? 1) then iterations w
                 else match draw with Some _ => S (iterations w) | None => iterations w end))
  | step_recv w v :
      alive (workers w) ->
      coord w = CRecv -> resultChan (shared w) = Some v ->
      step w (mkWorld (mkShared (totalAttempts (shared w)) (found (shared w)) None)
                (workers w) (CStore v) (accepted w) (iterations w))
  | step_store w v :
      alive (workers w) ->
      coord w = CStore v ->
      step w (mkWorld (mkShared (totalAttempts (shared w)) 1 (resultChan (shared w)))
                (workers w) (CJoin v) (accepted w) (iterations w))
  | step_join w v :
      alive (workers w) ->
      coord w = CJoin v -> Forall (fun st => st = Done) (workers w) ->
      step w (mkWorld (shared w) (workers w) (CReturned v) (accepted w) (iterations w)).

(** Reflexive-transitive closure of [step]. *)
Inductive reachable (w : World) : World -> Prop :=
  | reach_refl : reachable w w
  | reach_step w1 w2 : reachable w w1 -> step w1 w2 -> reachable w w2.

End Search.

(** Stand-ins for the hash and key primitives, used to run the model on
    concrete inputs: every digest and every public key is 32 zero bytes. *)
Definition stub_hash (_ : list Z) : list Z := zeros 32.
Definition stub_key (_ : list Z) : list Z := zeros 32.

(** A broken random source: it never supplies bytes. *)
Definition failing_source (_ : nat) : option (list Z) := None.

(** A run of the pool with two workers on the prefix pattern [[0]] (every
    address of the stand-ins starts with nibble 0): worker 0 draws 64 zero
    bytes and sends [run_id0]; [main] receives it ([run_store]) and stores
    the stop flag ([run_join]); worker 1 then sees the flag and returns, and
    [main] returns [run_id0] ([run_returned]). In [run_second], worker 1
    instead draws 64 bytes 1 before the store and sends [run_id1] into the
    emptied slot. *)
Definition run_id0 : Identity := makeIdentity stub_hash stub_key stub_key (zeros 64).
Definition run_id1 : Identity := makeIdentity stub_hash stub_key stub_key (replicate 64 1).
Definition run_store : World :=
  mkWorld (mkShared 1 0 None) [Done; Running] (CStore run_id0) [run_id0] 1.
Definition run_join : World :=
  mkWorld (mkShared 1 1 None) [Done; Running] (CJoin run_id0) [run_id0] 1.
Definition run_returned : World :=
  mkWorld (mkShared 1 1 None) [Done; Done] (CReturned run_id0) [run_id0] 1.
Definition run_second : World :=
  mkWorld (mkShared 2 0 (Some run_id1)) [Done; Done] (CStore run_id0) [run_id0; run_id1] 2.

(* ------------------------------------------------------------------ *)
(** ** saveIdentity *)

(** The file system as a map from paths to contents. *)
Abbreviation FS := (gmap string (list Z)).

(** A small error-and-state monad for the [os] calls: an [error] ([string])
    or a value, with the updated file system. *)
Definition IO (A : Type) : Type := FS -> (string + A) * FS.

Definition io_ret {A} (x : A) : IO A := fun fs => (inr x, fs).
Definition io_bind {A B} (m : IO A) (k : A -> IO B) : IO B :=
  fun fs => match m fs with
            | (inl e, fs') => (inl e, fs')
            | (inr x, fs') => k x fs'
            end.

Notation "x <-- m ;; k" := (io_bind m (fun x => k))
  (at level 100, m at next level, right associativity).
Notation "m ;;; k" := (io_bind m (fun _ => k))
  (at level 100, right associativity).

Section Save.

(** The operating system's answer to [os.Create(path)] on the file system
    [fs]: [Some reason] when it fails (missing directory, no permission, a
    read-only file already there, a directory at [path], ...), with the text
    of the underlying error. *)
Variable createErr : FS -> string -> option string.
(** The operating system's answer to [f.Write(b)] on [fs]: [Some (n, reason)]
    when the write fails after writing only the first [n] bytes of [b] (a
    full disk, an I/O error, ...). *)
Variable writeErr : FS -> string -> list Z -> option (nat * string).
(** The encoders used for the report: [hex.EncodeToString],
    [base64.StdEncoding.EncodeToString], [base32.StdEncoding.EncodeToString]. *)
Variable hexEncode b64Encode b32Encode : list Z -> string.

(** [os.Create(path)]: creates or truncates the file; the handle is its
    path. Its error is the [*PathError] ["open " + path + ": " + reason]. *)
Definition osCreate (path : string) : IO string :=
  fun fs => match createErr fs path with
            | Some reason => (inl ("open " ++ path ++ ": " ++ reason)%string, fs)
            | None => (inr path, <[path := []]> fs)
            end.

(** [f.Write(b)]: appends [b] to the file, or the bytes written before the
    failure; its error is the [*PathError] ["write " + name + ": " + reason]. *)
Definition fileWrite (f : string) (b : list Z) : IO unit :=
  fun fs => match writeErr fs f b with
            | Some (n, reason) =>
                (inl ("write " ++ f ++ ": " ++ reason)%string,
                 <[f := default [] (fs !! f) ++ take n b]> fs)
            | None => (inr tt, <[f := default [] (fs !! f) ++ b]> fs)
            end.

(** [fmt.Fprintf(f, ...)] as a statement: writes the formatted text through
    [f.Write]; its error result is discarded. *)
Definition fprintf (f : string) (text : string) : IO unit :=
  fun fs => (inr tt, snd (fileWrite f (string_bytes text) fs)).

Definition nl : string := String (Ascii.ascii_of_nat 10) EmptyString.

(** [func saveIdentity(identity *Identity, path string) error]. *)
Definition saveIdentity (identity : Identity) (path : string) : IO unit :=
  file <-- osCreate path ;;
  fileWrite file (X25519Private identity) ;;;
  fileWrite file (Ed25519Seed identity) ;;;
  let infoPath := (path ++ ".txt")%string in
  infoFile <-- osCreate infoPath ;;
  fprintf infoFile ("LXMF Vanity Address Identity" ++ nl) ;;;
  fprintf infoFile ("============================" ++ nl ++ nl) ;;;
  fprintf infoFile ("Address (LXMF): " ++ hexEncode (Address identity) ++ nl) ;;;
  fprintf infoFile ("Identity Hash:  " ++ hexEncode (Hash identity) ++ nl ++ nl) ;;;
  fprintf infoFile ("Public Key (X25519 + Ed25519):" ++ nl) ;;;
  fprintf infoFile ("  X25519 Public:  " ++ hexEncode (X25519Public identity) ++ nl) ;;;
  fprintf infoFile ("  Ed25519 Public: " ++ hexEncode (Ed25519Public identity) ++ nl ++ nl) ;;;
  let privKey := copy_into (zeros 64) 0 32 (X25519Private identity) in
  let privKey := copy_into privKey 32 64 (Ed25519Seed identity) in
  let b64 := b64Encode privKey in
  let b32 := b32Encode privKey in
  fprintf infoFile ("Private Key (X25519 + Ed25519):" ++ nl) ;;;
  fprintf infoFile ("  X25519 Private: " ++ hexEncode (X25519Private identity) ++ nl) ;;;
  fprintf infoFile ("  Ed25519 Seed:   " ++ hexEncode (Ed25519Seed identity) ++ nl) ;;;
  fprintf infoFile nl ;;;
  fprintf infoFile ("--- Import formats ---" ++ nl) ;;;
  fprintf infoFile ("Base64 (MeshChat import string):" ++ nl ++ b64 ++ nl) ;;;
  fprintf infoFile ("Base32 (Sideband import string):" ++ nl ++ b32 ++ nl) ;;;
  io_ret tt.

(** An action leaves the file at [p] as it was. *)
Definition preserves (p : string) {A : Type} (m : IO A) : Prop :=
  forall fs r fs', m fs = (r, fs') -> fs' !! p = fs !! p.

End Save.

(* ------------------------------------------------------------------ *)
(** ** hex.EncodeToString and strings.ToLower as strings *)

(** [const hextable = "0123456789abcdef"] of [encoding/hex]. *)
Definition hextable : list Z := string_bytes "0123456789abcdef".

(** [hex.Encode]: [dst[j] = hextable[v>>4]; dst[j+1] = hextable[v&0x0f]]
    for every byte [v] of [src]. *)
Fixpoint hexEncodeBytes (src : list Z) : list Z :=
  match src with
  | [] => []
  | v :: rest =>
      hextable !!! Z.to_nat (Z.shiftr v 4) :: hextable !!! Z.to_nat (Z.land v 15)
        :: hexEncodeBytes rest
  end.

(** The Go string made of the bytes [b] ([string(b)]). *)
Definition bytes_string (b : list Z) : string :=
  String.string_of_list_ascii (map (fun c => Ascii.ascii_of_nat (Z.to_nat c)) b).

(** [hex.EncodeToString(src)]. *)
Definition EncodeToString (src : list Z) : string := bytes_string (hexEncodeBytes src).

(** [strings.ToLower(s)] as a string, for the ASCII input [main] passes it. *)
Definition toLowerString (s : string) : string := bytes_string (toLower s).

(* ------------------------------------------------------------------ *)
(** ** main *)

(** The UTF-8 bytes of U+2713 (check mark), printed before the result. *)
Definition check_mark : string :=
  String (Ascii.ascii_of_nat 226) (String (Ascii.ascii_of_nat 156)
    (String (Ascii.ascii_of_nat 147) EmptyString)).

(** What a run of the program leaves: its standard output and error, its
    exit status ([None] while it runs for ever) and the file system. *)
Record Outcome := mkOutcome {
  stdout : string;
  stderr : string;
  exitCode : option Z;
  files : FS
}.

(** How lines 94-109 of [main] end: the worker pool started on the parsed
    patterns with [workers] goroutines, the receive from [resultChan] and
    [wg.Wait()], whose interleavings [step] describes. *)
Inductive SearchEnd :=
  | Found (identity : Identity) (attempts : Z)
      (* the identity received, and [totalAttempts] loaded after the wait *)
  | Fatal (report : string)
      (* a goroutine ended the program (the fatal error of [rand.Read], or a
         panic), with the runtime's report on standard error; exit status 2 *)
  | Forever.
      (* no identity is ever received *)

Section Main.

Variable createErr : FS -> string -> option string.
Variable writeErr : FS -> string -> list Z -> option (nat * string).
Variable b64Encode b32Encode : list Z -> string.
(** The outcome of the search. (The progress lines [monitorProgress] writes
    meanwhile are not part of [stdout] here.) *)
Variable search : list Z -> list Z -> Z -> SearchEnd.

(** [func main()], after [flag.Parse()] has set [prefix], [postfix],
    [workers], [outPath] and [dryRun]. *)
Definition main (prefix postfix : string) (workers : Z) (outPath : string)
    (dryRun : bool) (fs : FS) : Outcome :=
  match validateInputs prefix postfix workers with
  | Some err => mkOutcome "" ("Error: " ++ err ++ nl) (Some 1) fs  (* os.Exit(1) *)
  | None =>
      let prefix := toLowerString prefix in
      let postfix := toLowerString postfix in
      let prefixNibbles := if negb (String.eqb prefix "")
                           then hexToNibbles (string_bytes prefix) else [] in
      let postfixNibbles := if negb (String.eqb postfix "")
                            then hexToNibbles (string_bytes postfix) else [] in
      let out := ("Searching for LXMF vanity address..." ++ nl)%string in
      let out := if negb (String.eqb prefix "")
                 then (out ++ "  Prefix:  " ++ prefix ++ nl)%string else out in
      let out := if negb (String.eqb postfix "")
                 then (out ++ "  Postfix: " ++ postfix ++ nl)%string else out in
      let out := (out ++ "  Workers: " ++ pretty workers ++ nl)%string in
      let out := if dryRun
                 then (out ++ "  Mode:    DRY RUN (speed test only)" ++ nl)%string
                 else out in
      let out := (out ++ nl)%string in                         (* fmt.Println() *)
      match search prefixNibbles postfixNibbles workers with
      | Forever => mkOutcome out "" None fs
      | Fatal report => mkOutcome out report (Some 2) fs
      | Found received attempts =>
          let identity := received in
          let addrHex := EncodeToString (Address identity) in
          let out := (out ++ nl ++ check_mark ++ " Found matching address: " ++ addrHex ++ nl)%string in
          let out := (out ++ "  Total attempts: " ++ pretty attempts ++ nl)%string in
          if dryRun then mkOutcome out "" (Some 0) fs else
          match saveIdentity createErr writeErr EncodeToString b64Encode b32Encode
                  identity outPath fs with
          | (inl e, fs') => mkOutcome out ("Error saving identity: " ++ e ++ nl) (Some 1) fs'
          | (inr _, fs') => mkOutcome (out ++ "  Saved to: " ++ outPath ++ nl) "" (Some 0) fs'
          end
      end
  end.

End Main.

(* ------------------------------------------------------------------ *)
(** ** formatNumber *)

(** [float64(n)] for an integer [n]: IEEE binary64, round to nearest even. *)
Definition float64_of_Z (n : Z) : SpecFloat.spec_float :=
  SpecFloat.binary_normalize 53 1024 n 0 false.

(** Division of [float64] values. *)
Definition float64_div (x y : SpecFloat.spec_float) : SpecFloat.spec_float :=
  SpecFloat.SFdiv 53 1024 x y.

(** [num / den] rounded to the nearest integer, ties to even ([den > 0]). *)
Definition round_half_even (num den : Z) : Z :=
  let q := num / den in
  let r := num mod den in
  if den <? 2 * r then q + 1
  else if 2 * r =? den then (if Z.even q then q else q + 1)
  else q.

(** [m * 2^e * 100] rounded as [strconv]'s exact decimal conversion
    ([bigFtoa] and [decimal.Round]) rounds it: to nearest, ties to even. *)
Definition fixed2_digits (m : positive) (e : Z) : Z :=
  if 0 <=? e then Z.pos m * 2 ^ e * 100
  else round_half_even (Z.pos m * 100) (2 ^ (- e)).

(** A non-negative count of hundredths [h] written with two decimals. *)
Definition fixed2 (h : Z) : string :=
  let ip : string := pretty (h / 100) in
  let fp : string := if h mod 100 <? 10 then ("0" ++ pretty (h mod 100))%string
                     else pretty (h mod 100) in
  (ip ++ "." ++ fp)%string.

(** [fmt.Sprintf("%.2f", x)]. *)
Definition sprintf_2f (x : SpecFloat.spec_float) : string :=
  match x with
  | SpecFloat.S754_zero s => if s then "-0.00" else "0.00"
  | SpecFloat.S754_infinity s => if s then "-Inf" else "+Inf"
  | SpecFloat.S754_nan => "NaN"
  | SpecFloat.S754_finite s m e => ((if s then "-" else "") ++ fixed2 (fixed2_digits m e))%string
  end.

(** [func formatNumber(n uint64) string]. *)
Definition formatNumber (n : Z) : string :=
  if 1000000 <=? n
  then (sprintf_2f (float64_div (float64_of_Z n) (float64_of_Z 1000000)) ++ "M")%string
  else if 1000 <=? n
  then (sprintf_2f (float64_div (float64_of_Z n) (float64_of_Z 1000)) ++ "K")%string
  else pretty n.                                              (* "%d" *)

(* ------------------------------------------------------------------ *)
(** ** Worker pool bookkeeping *)

(** Number of terminated workers. *)
Fixpoint done_count (ws : list WStatus) : nat :=
  match ws with
  | [] => O
  | Done :: ws => S (done_count ws)
  | _ :: ws => done_count ws
  end.

(** A published identity: derived from 64 drawn bytes by [makeIdentity],
    with an address [matchesPattern] accepts. *)
Definition published (sha256 scalarBaseMult ed25519Public : list Z -> list Z)
    (prefixNibbles postfixNibbles : list Z) (v : Identity) : Prop :=
  (exists randBuf, v = makeIdentity sha256 scalarBaseMult ed25519Public randBuf) /\
  matchesPattern prefixNibbles postfixNibbles (Address v) = Some true.

(* ================================================================== *)
(** * Properties *)

(* ------------------------------------------------------------------ *)
(** ** Go [copy] on fixed arrays *)

Lemma length_go_copy (dst src : list Z) : length (go_copy dst src) = length dst.
Proof.
  revert src; induction dst as [|d ds IH]; intros [|s ss]; simpl; auto.
Qed.

Lemma go_copy_exact (dst src : list Z) :
  length src = length dst -> go_copy dst src = src.
Proof.
  revert src; induction dst as [|d ds IH]; intros [|s ss] Hlen;
    simpl in *; try discriminate; auto.
  f_equal. apply IH. lia.
Qed.

Lemma length_slice (s : list Z) (lo hi : nat) :
  (lo <= hi)%nat -> (hi <= length s)%nat -> length (slice s lo hi) = (hi - lo)%nat.
Proof.
  intros H1 H2. unfold slice. rewrite length_take, length_drop. lia.
Qed.

Lemma copy_into_exact (dst : list Z) (lo hi : nat) (src : list Z) :
  (lo <= hi)%nat -> (hi <= length dst)%nat -> length src = (hi - lo)%nat ->
  copy_into dst lo hi src = take lo dst ++ src ++ drop hi dst.
Proof.
  intros H1 H2 H3. unfold copy_into. rewrite go_copy_exact; [done|].
  rewrite length_slice; lia.
Qed.

Lemma length_copy_into (dst : list Z) (lo hi : nat) (src : list Z) :
  (lo <= hi)%nat -> (hi <= length dst)%nat ->
  length (copy_into dst lo hi src) = length dst.
Proof.
  intros H1 H2. unfold copy_into.
  rewrite !length_app, length_go_copy, length_slice, length_take, length_drop by lia.
  lia.
Qed.

(** Two 32-byte halves copied into a zeroed 64-byte array, and likewise for
    10 + 16 = 26 bytes: the array is their concatenation. *)
Lemma copy_two_halves (a b : list Z) (n m t : nat) :
  t = (n + m)%nat -> length a = n -> length b = m ->
  copy_into (copy_into (zeros t) 0 n a) n t b = a ++ b.
Proof.
  intros -> Ha Hb. unfold zeros.
  rewrite (copy_into_exact _ 0 n a) by (rewrite ?length_replicate; lia).
  rewrite take_0, drop_replicate, app_nil_l.
  rewrite copy_into_exact by (rewrite ?length_app, ?length_replicate; lia).
  rewrite take_app_length' by lia.
  rewrite drop_ge by (rewrite length_app, length_replicate; lia).
  by rewrite app_nil_r.
Qed.

Lemma copy_prefix (h : list Z) (n : nat) :
  (n <= length h)%nat -> go_copy (zeros n) (slice h 0 n) = take n h.
Proof.
  intros Hn. rewrite go_copy_exact.
  - unfold slice. by rewrite drop_0, Nat.sub_0_r.
  - unfold zeros. rewrite length_slice, length_replicate; lia.
Qed.

(* ------------------------------------------------------------------ *)
(** ** Address derivation *)

Section Derivation.

Variable sha256 : list Z -> list Z.
Variable scalarBaseMult : list Z -> list Z.
Variable ed25519Public : list Z -> list Z.

Lemma nameHash_spec :
  (forall m, length (sha256 m) = 32%nat) -> nameHash sha256 = spec_name_hash sha256.
Proof.
  intros Hsha. unfold nameHash, spec_name_hash, slice. by rewrite drop_0.
Qed.

Lemma length_nameHash :
  (forall m, length (sha256 m) = 32%nat) -> length (nameHash sha256) = 10%nat.
Proof.
  intros Hsha. unfold nameHash. rewrite length_slice; rewrite ?Hsha; lia.
Qed.

(** The identity produced by one iteration keeps the public keys it was
    built from, and its hash and address are [deriveAddress] of them. *)
Lemma makeIdentity_fields (randBuf : list Z) :
  let identity := makeIdentity sha256 scalarBaseMult ed25519Public randBuf in
  deriveAddress sha256 (X25519Public identity) (Ed25519Public identity)
  = (Hash identity, Address identity).
Proof.
  unfold makeIdentity.
  set (xpub := go_copy (zeros 32) (scalarBaseMult _)).
  set (epub := go_copy (zeros 32) (ed25519Public _)).
  destruct (deriveAddress sha256 xpub epub) as [h a] eqn:E. exact E.
Qed.

Lemma length_makeIdentity_keys (randBuf : list Z) :
  let identity := makeIdentity sha256 scalarBaseMult ed25519Public randBuf in
  length (X25519Private identity) = 32%nat /\ length (X25519Public identity) = 32%nat /\
  length (Ed25519Seed identity) = 32%nat /\ length (Ed25519Public identity) = 32%nat.
Proof.
  unfold makeIdentity.
  destruct (deriveAddress _ _ (go_copy (zeros 32) (ed25519Public _))).
  cbn -[go_copy zeros]. unfold clampX25519.
  rewrite !length_insert, !length_go_copy. done.
Qed.

End Derivation.

(** C1 *)
(** Claim C1: for every pair of 32-byte public keys, the worker's derivation
    yields as fingerprint ([Hash]) the first 16 bytes of SHA-256 of the
    64-byte concatenation exchange key ++ signing key, and as address the
    first 16 bytes of SHA-256 of the 26-byte concatenation of the name hash
    (first 10 bytes of SHA-256 of "lxmf.delivery") and the fingerprint. *)
Theorem deriveAddress_hash_chain (sha256 : list Z -> list Z) (xpub epub : list Z) :
  (forall m, length (sha256 m) = 32%nat) ->
  length xpub = 32%nat -> length epub = 32%nat ->
  nameHash sha256 = spec_name_hash sha256 /\
  length (xpub ++ epub) = 64%nat /\
  length (spec_name_hash sha256 ++ spec_fingerprint sha256 xpub epub) = 26%nat /\
  deriveAddress sha256 xpub epub
  = (spec_fingerprint sha256 xpub epub,
     spec_address sha256 (spec_fingerprint sha256 xpub epub)).
Proof.
  intros Hsha Hx He.
  assert (Hfp : length (spec_fingerprint sha256 xpub epub) = 16%nat).
  { unfold spec_fingerprint. rewrite length_take, Hsha. lia. }
  assert (Hnh : length (spec_name_hash sha256) = 10%nat).
  { rewrite <- nameHash_spec by done. by apply length_nameHash. }
  split; [by apply nameHash_spec|].
  split; [rewrite length_app; lia|].
  split; [rewrite length_app; lia|].
  unfold deriveAddress.
  rewrite (copy_two_halves xpub epub 32 32 64) by done.
  rewrite copy_prefix by (rewrite Hsha; lia).
  rewrite (nameHash_spec sha256 Hsha).
  rewrite (copy_two_halves _ _ 10 16 26); [|done|done|].
  - rewrite copy_prefix by (rewrite Hsha; lia). done.
  - rewrite length_take, Hsha. lia.
Qed.

Lemma deriveAddress_hash_chain_witness :
  let sha := fun _ : list Z => zeros 32 in
  (forall m, length (sha m) = 32%nat) /\
  length (zeros 32) = 32%nat /\
  deriveAddress sha (zeros 32) (zeros 32)
  = (spec_fingerprint sha (zeros 32) (zeros 32),
     spec_address sha (spec_fingerprint sha (zeros 32) (zeros 32))).
Proof.
  intros sha.
  assert (Hsha : forall m, length (sha m) = 32%nat) by (intros; reflexivity).
  split; [exact Hsha|]. split; [reflexivity|].
  exact (proj2 (proj2 (proj2
    (deriveAddress_hash_chain sha (zeros 32) (zeros 32) Hsha eq_refl eq_refl)))).
Defined.

(** C8 *)
(** Claim C8: the derivation is a deterministic function of the key
    material: recomputing it from the public-key fields stored in an
    identity built by the worker reproduces that identity's [Hash] and
    [Address]; two identities with the same public keys have the same
    [Hash] and [Address]. *)
Theorem derivation_roundtrip (sha256 scalarBaseMult ed25519Public : list Z -> list Z)
    (randBuf randBuf' : list Z) :
  let identity := makeIdentity sha256 scalarBaseMult ed25519Public randBuf in
  let identity' := makeIdentity sha256 scalarBaseMult ed25519Public randBuf' in
  deriveAddress sha256 (X25519Public identity) (Ed25519Public identity)
    = (Hash identity, Address identity) /\
  (X25519Public identity = X25519Public identity' ->
   Ed25519Public identity = Ed25519Public identity' ->
   Hash identity = Hash identity' /\ Address identity = Address identity').
Proof.
  intros identity identity'.
  pose proof (makeIdentity_fields sha256 scalarBaseMult ed25519Public randBuf) as H1.
  pose proof (makeIdentity_fields sha256 scalarBaseMult ed25519Public randBuf') as H2.
  change (deriveAddress sha256 (X25519Public identity) (Ed25519Public identity)
          = (Hash identity, Address identity)) in H1.
  change (deriveAddress sha256 (X25519Public identity') (Ed25519Public identity')
          = (Hash identity', Address identity')) in H2.
  clearbody identity identity'.
  split; [exact H1|].
  intros Hx He. rewrite Hx, He, H2 in H1. injection H1 as -> ->. done.
Qed.

(* ------------------------------------------------------------------ *)
(** ** Clamping *)

Lemma clamp_byte0 (k : list Z) :
  (0 < length k)%nat -> clampX25519 k !!! 0%nat = Z.land (k !!! 0%nat) 248.
Proof.
  intros Hk. unfold clampX25519.
  rewrite !list_lookup_total_insert_ne by lia.
  by rewrite list_lookup_total_insert_eq.
Qed.

Lemma clamp_byte31 (k : list Z) :
  length k = 32%nat ->
  clampX25519 k !!! 31%nat = Z.lor (Z.land (k !!! 31%nat) 127) 64.
Proof.
  intros Hk. unfold clampX25519.
  rewrite list_lookup_total_insert_eq by (rewrite !length_insert; lia).
  rewrite list_lookup_total_insert_eq by (rewrite !length_insert; lia).
  by rewrite list_lookup_total_insert_ne by lia.
Qed.

Lemma clamp_other (k : list Z) (i : nat) :
  i <> 0%nat -> i <> 31%nat -> clampX25519 k !! i = k !! i.
Proof.
  intros H0 H31. unfold clampX25519.
  by rewrite !list_lookup_insert_ne by lia.
Qed.

Lemma length_clampX25519 (k : list Z) : length (clampX25519 k) = length k.
Proof. unfold clampX25519. by rewrite !length_insert. Qed.

(** Case split on the eight bit positions of a byte. *)
Ltac byte_bit_cases b :=
  let H := fresh in
  assert (H : b = 0 \/ b = 1 \/ b = 2 \/ b = 3 \/ b = 4 \/ b = 5 \/ b = 6 \/ b = 7)
    by lia;
  repeat destruct H as [H|H]; subst b.

Lemma clamp_bits_byte0 (k : list Z) (b : Z) :
  (0 < length k)%nat -> 0 <= b < 8 ->
  Z.testbit (clampX25519 k !!! 0%nat) b
  = if b <? 3 then false else Z.testbit (k !!! 0%nat) b.
Proof.
  intros Hk Hb. rewrite clamp_byte0, Z.land_spec by done.
  remember (Z.testbit (k !!! 0%nat) b) as t eqn:Ht. clear Ht.
  byte_bit_cases b; destruct t; reflexivity.
Qed.

Lemma clamp_bits_byte31 (k : list Z) (b : Z) :
  length k = 32%nat -> 0 <= b < 8 ->
  Z.testbit (clampX25519 k !!! 31%nat) b
  = if b =? 7 then false else if b =? 6 then true else Z.testbit (k !!! 31%nat) b.
Proof.
  intros Hk Hb. rewrite clamp_byte31, Z.lor_spec, Z.land_spec by done.
  remember (Z.testbit (k !!! 31%nat) b) as t eqn:Ht. clear Ht.
  byte_bit_cases b; destruct t; reflexivity.
Qed.

Lemma makeIdentity_private (sha256 scalarBaseMult ed25519Public : list Z -> list Z)
    (randBuf : list Z) :
  X25519Private (makeIdentity sha256 scalarBaseMult ed25519Public randBuf)
  = clampX25519 (go_copy (zeros 32) (slice randBuf 0 32)).
Proof.
  unfold makeIdentity.
  by destruct (deriveAddress _ _ (go_copy (zeros 32) (ed25519Public _))).
Qed.

(** C4 *)
(** Claim C4: on a 32-byte input, [clampX25519] clears bits 0-2 of byte 0,
    clears bit 7 and sets bit 6 of byte 31, and leaves every other bit of
    the 32 bytes as it was; so every exchange private key the worker
    generates has these three bit properties. *)
Theorem clampX25519_spec (k : list Z) :
  length k = 32%nat ->
  let c := clampX25519 k in
  length c = 32%nat /\
  (forall b, 0 <= b < 8 ->
     Z.testbit (c !!! 0%nat) b = if b <? 3 then false else Z.testbit (k !!! 0%nat) b) /\
  (forall b, 0 <= b < 8 ->
     Z.testbit (c !!! 31%nat) b
     = if b =? 7 then false else if b =? 6 then true else Z.testbit (k !!! 31%nat) b) /\
  (forall i, (0 < i < 31)%nat -> c !! i = k !! i) /\
  (forall (sha256 scalarBaseMult ed25519Public : list Z -> list Z) (randBuf : list Z),
     let priv := X25519Private (makeIdentity sha256 scalarBaseMult ed25519Public randBuf) in
     Z.testbit (priv !!! 0%nat) 0 = false /\ Z.testbit (priv !!! 0%nat) 1 = false /\
     Z.testbit (priv !!! 0%nat) 2 = false /\
     Z.testbit (priv !!! 31%nat) 7 = false /\ Z.testbit (priv !!! 31%nat) 6 = true).
Proof.
  intros Hk c. subst c.
  split; [by rewrite length_clampX25519|].
  split; [intros b Hb; apply clamp_bits_byte0; [lia|done]|].
  split; [intros b Hb; by apply clamp_bits_byte31|].
  split; [intros i Hi; apply clamp_other; lia|].
  intros sha256 scalarBaseMult ed25519Public randBuf priv. subst priv.
  rewrite makeIdentity_private.
  assert (Hl : length (go_copy (zeros 32) (slice randBuf 0 32)) = 32%nat)
    by (rewrite length_go_copy; reflexivity).
  rewrite !clamp_bits_byte0, !clamp_bits_byte31 by (rewrite ?Hl; lia).
  repeat split.
Qed.

Lemma clampX25519_spec_witness :
  length (zeros 32) = 32%nat /\
  length (clampX25519 (zeros 32)) = 32%nat.
Proof.
  split; [reflexivity|].
  exact (proj1 (clampX25519_spec (zeros 32) eq_refl)).
Defined.

(* ------------------------------------------------------------------ *)
(** ** hexToNibbles and the lowercasing in [main] *)

Local Arguments is_digit : simpl never.
Local Arguments is_lower_hex : simpl never.
Local Arguments is_upper_hex : simpl never.

Lemma lookup_map_Z (f : Z -> Z) (l : list Z) (j : nat) :
  map f l !! j = f <$> l !! j.
Proof.
  revert j; induction l as [|x l IH]; intros [|j]; simpl; auto.
Qed.

(** Loop invariant of [hexToNibbles]: positions before [i] are untouched by
    the rest of the loop, positions from [i] on get the loop body's value. *)
Lemma hexToNibbles_loop_lookup (s nibbles : list Z) (i fuel j : nat) :
  (i + fuel = length s)%nat -> length nibbles = length s ->
  hexToNibbles_loop s nibbles i fuel !! j
  = if (j <? i)%nat then nibbles !! j
    else (fun old => let c := s !!! j in
                     if is_digit c then c - 48
                     else if is_lower_hex c then c - 97 + 10 else old) <$> nibbles !! j.
Proof.
  revert i nibbles; induction fuel as [|f IH]; intros i nibbles Hi Hn; simpl.
  - destruct (Nat.ltb_spec j i) as [Hj|Hj]; [done|].
    rewrite lookup_ge_None_2 by lia. done.
  - set (c := s !!! i).
    set (nib' := if is_digit c then <[i := c - 48]> nibbles
                 else if is_lower_hex c then <[i := c - 97 + 10]> nibbles else nibbles).
    assert (Hlen : length nib' = length s).
    { subst nib'. destruct (is_digit c), (is_lower_hex c); rewrite ?length_insert; done. }
    rewrite (IH (S i) nib') by lia.
    destruct (Nat.ltb_spec j (S i)) as [Hj|Hj];
      destruct (Nat.ltb_spec j i) as [Hj'|Hj']; try lia.
    + subst nib'. destruct (is_digit c), (is_lower_hex c);
        rewrite ?list_lookup_insert_ne by lia; done.
    + assert (j = i) by lia. subst j.
      fold c. subst nib'.
      destruct (is_digit c) eqn:Ed; [|destruct (is_lower_hex c) eqn:El].
      * rewrite list_lookup_insert_eq by lia.
        destruct (lookup_lt_is_Some_2 nibbles i) as [x ->]; [lia|].
        simpl. subst c. by rewrite ?Ed.
      * rewrite list_lookup_insert_eq by lia.
        destruct (lookup_lt_is_Some_2 nibbles i) as [x ->]; [lia|].
        simpl. subst c. by rewrite ?Ed, ?El.
      * destruct (lookup_lt_is_Some_2 nibbles i) as [x ->]; [lia|].
        simpl. subst c. by rewrite ?Ed, ?El.
    + subst nib'. destruct (is_digit c), (is_lower_hex c);
        rewrite ?list_lookup_insert_ne by lia; done.
Qed.

Lemma length_hexToNibbles_loop (s nibbles : list Z) (i fuel : nat) :
  length (hexToNibbles_loop s nibbles i fuel) = length nibbles.
Proof.
  revert i nibbles; induction fuel as [|f IH]; intros i nibbles; simpl; [done|].
  rewrite IH. destruct (is_digit (s !!! i)), (is_lower_hex (s !!! i));
    by rewrite ?length_insert.
Qed.

(** Splits every [Z.leb] test of the goal and hypotheses. *)
Ltac split_leb :=
  repeat match goal with
  | |- context [Z.leb ?a ?b] => destruct (Z.leb_spec a b)
  | H : context [Z.leb ?a ?b] |- _ => destruct (Z.leb_spec a b)
  end.

Lemma hexToNibbles_lookup (s : list Z) (j : nat) (c : Z) :
  s !! j = Some c -> hexToNibbles s !! j = Some (spec_lower_nibble c).
Proof.
  intros Hc.
  assert (Hj : (j < length s)%nat) by (apply lookup_lt_is_Some_1; eauto).
  unfold hexToNibbles.
  rewrite hexToNibbles_loop_lookup by (rewrite ?length_replicate; unfold zeros;
    rewrite ?length_replicate; lia).
  unfold zeros. rewrite lookup_replicate_2 by done. simpl.
  rewrite (list_lookup_total_correct s j c Hc).
  unfold spec_lower_nibble, is_digit, is_lower_hex.
  split_leb; simpl; f_equal; lia.
Qed.

Lemma length_string_bytes (str : string) :
  length (string_bytes str) = String.length str.
Proof.
  unfold string_bytes. rewrite length_map.
  induction str as [|a str IH]; simpl; auto.
Qed.

Lemma isHex_lookup (str : string) (j : nat) (c : Z) :
  isHex str = true -> string_bytes str !! j = Some c ->
  is_digit c || is_lower_hex c || is_upper_hex c = true.
Proof.
  intros Hhex Hc. unfold isHex in Hhex.
  rewrite forallb_forall in Hhex. apply Hhex.
  apply list_elem_of_In. by eapply list_elem_of_lookup_2.
Qed.

(** C10 *)
(** Claim C10: [hexToNibbles] returns a slice of the input's length; each
    '0'..'9' or 'a'..'f' becomes its hex value and every other character,
    including the upper-case 'A'..'F' that [validateInputs] accepts, becomes
    0 without any error; the lowercasing [main] does before parsing makes
    every validated pattern parse to the values of its hex digits. *)
Theorem hexToNibbles_spec (s : list Z) :
  length (hexToNibbles s) = length s /\
  (forall j c, s !! j = Some c -> hexToNibbles s !! j = Some (spec_lower_nibble c)) /\
  (forall c, is_upper_hex c = true -> spec_lower_nibble c = 0) /\
  validateInputs "ABCDEF" "" 1 = None /\
  hexToNibbles (string_bytes "ABCDEF") = [0; 0; 0; 0; 0; 0] /\
  (forall str, isHex str = true ->
     length (parsePattern str) = String.length str /\
     forall j c, string_bytes str !! j = Some c ->
       parsePattern str !! j = Some (hex_digit_value c)).
Proof.
  split; [unfold hexToNibbles; rewrite length_hexToNibbles_loop; apply length_replicate|].
  split; [apply hexToNibbles_lookup|].
  split; [intros c Hc; unfold is_upper_hex in Hc; unfold spec_lower_nibble;
          split_leb; simpl in *; try discriminate; lia|].
  split; [reflexivity|]. split; [reflexivity|].
  intros str Hhex. unfold parsePattern.
  destruct (String.eqb_spec str "") as [->|Hne].
  - split; [done|]. intros j c Hc. done.
  - split.
    + unfold hexToNibbles. rewrite length_hexToNibbles_loop. unfold zeros, toLower.
      by rewrite length_replicate, length_map, length_string_bytes.
    + intros j c Hc.
      pose proof (isHex_lookup str j c Hhex Hc) as Hx.
      rewrite (hexToNibbles_lookup _ j (if (65 <=? c) && (c <=? 90) then c + 32 else c)).
      * f_equal. unfold hex_digit_value, spec_lower_nibble.
        unfold is_digit, is_lower_hex, is_upper_hex in Hx.
        split_leb; simpl in *; try discriminate; lia.
      * unfold toLower. by rewrite lookup_map_Z, Hc.
Qed.

(* ------------------------------------------------------------------ *)
(** ** validateInputs *)

(** Enumerates an integer range [lo <= c <= hi] of the context, proving a
    membership goal at each value. *)
Ltac enum_member :=
  match goal with
  | H : ?lo <= ?c <= ?hi |- _ =>
      first
        [ assert (hi < lo) by lia; lia
        | destruct (Z.eq_dec c lo) as [->|Hne];
          [ apply list_elem_of_In; simpl; tauto
          | let lo' := eval compute in (lo + 1) in
            assert (lo' <= c <= hi) by lia; clear H Hne; enum_member ] ]
  end.

Lemma hex_char_iff (c : Z) :
  is_digit c || is_lower_hex c || is_upper_hex c = true <-> c ∈ hex_chars.
Proof.
  unfold is_digit, is_lower_hex, is_upper_hex. split.
  - intros H. rewrite !orb_true_iff, !andb_true_iff, !Z.leb_le in H.
    destruct H as [[[H1 H2]|[H1 H2]]|[H1 H2]];
      assert (H : _ <= c <= _) by exact (conj H1 H2); clear H1 H2; enum_member.
  - intros H. unfold hex_chars in H. rewrite list_elem_of_In in H. simpl in H.
    repeat destruct H as [H|H]; subst; try reflexivity; contradiction.
Qed.

Lemma isHex_false (str : string) :
  isHex str = false <-> exists c, c ∈ string_bytes str /\ c ∉ hex_chars.
Proof.
  unfold isHex. induction (string_bytes str) as [|x l IH]; simpl.
  - split; [discriminate|]. intros (c & Hc & _). by apply not_elem_of_nil in Hc.
  - destruct (is_digit x || is_lower_hex x || is_upper_hex x) eqn:Ex; simpl.
    + rewrite IH. split.
      * intros (c & Hc & Hn). exists c. split; [by apply list_elem_of_further|done].
      * intros (c & Hc & Hn). exists c. split; [|done].
        apply elem_of_cons in Hc as [->|Hc]; [|done].
        exfalso. apply Hn. by apply hex_char_iff.
    + split; [|done]. intros _. exists x. split; [apply list_elem_of_here|].
      rewrite <- hex_char_iff, Ex. discriminate.
Qed.

Lemma string_length_zero (str : string) : String.length str = 0%nat -> str = "".
Proof. destruct str; simpl; [done|discriminate]. Qed.

(** C6 *)
(** Claim C6: [validateInputs] (the first thing [main] does, before any
    worker is spawned) returns an error exactly when the configuration is
    invalid: a pattern has a non-hex character or more than 32 characters,
    both patterns are empty, or the worker count is below 1. *)
Theorem validateInputs_spec (prefix postfix : string) (workers : Z) :
  is_Some (validateInputs prefix postfix workers)
  <-> spec_config_invalid prefix postfix workers.
Proof.
  transitivity
    ((negb (String.eqb prefix "") && (32 <? Z.of_nat (String.length prefix))) ||
     (negb (String.eqb prefix "") && negb (isHex prefix)) ||
     (negb (String.eqb postfix "") && (32 <? Z.of_nat (String.length postfix))) ||
     (negb (String.eqb postfix "") && negb (isHex postfix)) ||
     (String.eqb prefix "" && String.eqb postfix "") ||
     (workers <? 1) = true).
  { unfold validateInputs.
    destruct (negb (String.eqb prefix "") && (32 <? Z.of_nat (String.length prefix)));
    destruct (negb (String.eqb prefix "") && negb (isHex prefix));
    destruct (negb (String.eqb postfix "") && (32 <? Z.of_nat (String.length postfix)));
    destruct (negb (String.eqb postfix "") && negb (isHex postfix));
    destruct (String.eqb prefix "" && String.eqb postfix "");
    destruct (workers <? 1); simpl;
    split; intros H; try done; destruct H as [? H]; discriminate. }
  rewrite !orb_true_iff, !andb_true_iff, !negb_true_iff, !String.eqb_eq,
    !Z.ltb_lt, !isHex_false.
  assert (Ep : forall s : string,
    (s <> "" -> False) \/ False -> False -> s = "") by tauto.
  unfold spec_config_invalid.
  assert (Lp : (String.eqb prefix "" = false /\ 32 < Z.of_nat (String.length prefix))
               <-> (32 < String.length prefix)%nat).
  { rewrite String.eqb_neq. split; [intros [_ H]; lia|].
    intros H. split; [intros ->; simpl in H; lia|lia]. }
  assert (Lq : (String.eqb postfix "" = false /\ 32 < Z.of_nat (String.length postfix))
               <-> (32 < String.length postfix)%nat).
  { rewrite String.eqb_neq. split; [intros [_ H]; lia|].
    intros H. split; [intros ->; simpl in H; lia|lia]. }
  assert (Hp : (String.eqb prefix "" = false /\
                exists c, c ∈ string_bytes prefix /\ c ∉ hex_chars)
               <-> exists c, c ∈ string_bytes prefix /\ c ∉ hex_chars).
  { rewrite String.eqb_neq. split; [intros [_ H]; done|].
    intros H. split; [|done]. intros ->. destruct H as (c & Hc & _).
    by apply not_elem_of_nil in Hc. }
  assert (Hq : (String.eqb postfix "" = false /\
                exists c, c ∈ string_bytes postfix /\ c ∉ hex_chars)
               <-> exists c, c ∈ string_bytes postfix /\ c ∉ hex_chars).
  { rewrite String.eqb_neq. split; [intros [_ H]; done|].
    intros H. split; [|done]. intros ->. destruct H as (c & Hc & _).
    by apply not_elem_of_nil in Hc. }
  rewrite Lp, Lq, Hp, Hq. tauto.
Qed.

(* ------------------------------------------------------------------ *)
(** ** matchesPattern *)

Lemma even_mod2 (k : nat) : Nat.even k = Nat.eqb (k mod 2) 0.
Proof.
  induction k as [k IH] using lt_wf_ind.
  destruct k as [|[|k]]; [reflexivity|reflexivity|].
  change (Nat.even (S (S k))) with (Nat.even k).
  rewrite IH by lia.
  replace (S (S k)) with (k + 1 * 2)%nat by lia.
  by rewrite Nat.Div0.mod_add.
Qed.

(** Reading a nibble with shifts and masks is reading it with division
    and remainder. *)
Lemma nibbleAt_spec (addr : list Z) (k : nat) :
  length addr = 16%nat -> Forall (fun b => 0 <= b < 256) addr -> (k < 32)%nat ->
  nibbleAt addr (Z.of_nat k) = Some (spec_nibble addr k).
Proof.
  intros Hlen Hbytes Hk. unfold nibbleAt, spec_nibble.
  assert (Hq : Z.quot (Z.of_nat k) 2 = Z.of_nat (k / 2)).
  { rewrite Z.quot_div_nonneg by lia. by rewrite Nat2Z.inj_div. }
  assert (Hr : Z.rem (Z.of_nat k) 2 = Z.of_nat (k mod 2)).
  { rewrite Z.rem_mod_nonneg by lia. by rewrite Nat2Z.inj_mod. }
  rewrite Hq, Hr, Nat2Z.id.
  destruct (Z.ltb_spec (Z.of_nat (k / 2)) 0) as [Hneg|_]; [lia|].
  destruct (lookup_lt_is_Some_2 addr (k / 2)) as [b Hb].
  { rewrite Hlen. apply Nat.Div0.div_lt_upper_bound. lia. }
  rewrite Hb, (list_lookup_total_correct _ _ _ Hb).
  assert (Hrange : 0 <= b < 256).
  { rewrite Forall_lookup in Hbytes. by apply (Hbytes (k / 2)%nat). }
  assert (H15 : 15 = Z.ones 4) by reflexivity.
  rewrite H15, !Z.land_ones, Z.shiftr_div_pow2 by lia.
  change (2 ^ 4) with 16.
  rewrite (Z.mod_small (b / 16)) by (split; [apply Z.div_pos | apply Z.div_lt_upper_bound]; lia).
  rewrite even_mod2.
  destruct (k mod 2)%nat as [|m]; simpl; [done|].
  destruct (Z.eqb_spec (Z.pos (Pos.of_succ_nat m)) 0); [lia|done].
Qed.

(** The loop of [matchesPattern] compares the nibbles [g i], ...,
    [g (i + fuel - 1)] with the pattern, never panics, and runs to its end
    exactly when all of them agree. *)
Lemma nibbleLoop_spec (addr nibbles : list Z) (start : Z) (g : nat -> Z) (i fuel : nat) :
  (i + fuel <= length nibbles)%nat ->
  (forall k, (i <= k < i + fuel)%nat -> nibbleAt addr (start + Z.of_nat k) = Some (g k)) ->
  exists r, nibbleLoop addr nibbles start i fuel = Some r /\
    (r = true <-> forall k, (i <= k < i + fuel)%nat -> g k = nibbles !!! k).
Proof.
  revert i; induction fuel as [|f IH]; intros i Hlen Hg; simpl.
  - exists true. split; [done|]. split; [intros _ k Hk; lia|done].
  - rewrite (Hg i) by lia.
    destruct (lookup_lt_is_Some_2 nibbles i) as [p Hp]; [lia|].
    rewrite Hp.
    destruct (Z.eqb_spec (g i) p) as [Heq|Hne]; simpl.
    + destruct (IH (S i)) as (r & Hr & Hiff); [lia| intros k Hk; apply Hg; lia|].
      exists r. split; [done|]. rewrite Hiff. split.
      * intros Hall k Hk. destruct (decide (k = i)) as [->|Hki].
        -- by rewrite (list_lookup_total_correct _ _ _ Hp).
        -- apply Hall. lia.
      * intros Hall k Hk. apply Hall. lia.
    + exists false. split; [done|]. split; [discriminate|].
      intros Hall. exfalso. apply Hne.
      rewrite (Hall i) by lia. by rewrite (list_lookup_total_correct _ _ _ Hp).
Qed.

(** C2 *)
(** Claim C2: on a 16-byte address and patterns of at most 32 nibbles,
    [matchesPattern] does not panic, and returns true exactly when every
    prefix nibble [i] equals nibble [i] of the address and every suffix
    nibble [j] equals nibble [32 - len suffix + j] of the address (nibble
    [k]: high half of byte [k/2] for even [k], low half for odd [k]); an
    empty pattern imposes nothing. *)
Theorem matchesPattern_spec (prefixNibbles postfixNibbles addr : list Z) :
  length addr = 16%nat -> Forall (fun b => 0 <= b < 256) addr ->
  (length prefixNibbles <= 32)%nat -> (length postfixNibbles <= 32)%nat ->
  exists r, matchesPattern prefixNibbles postfixNibbles addr = Some r /\
    (r = true <-> spec_matches prefixNibbles postfixNibbles addr).
Proof.
  intros Hlen Hbytes Hp Hs. unfold matchesPattern, spec_matches.
  destruct (nibbleLoop_spec addr prefixNibbles 0 (spec_nibble addr) 0 (length prefixNibbles))
    as (r1 & Hr1 & Hiff1); [lia| intros k Hk; rewrite Z.add_0_l; apply nibbleAt_spec; [done|done|lia]|].
  set (n := length postfixNibbles).
  destruct (nibbleLoop_spec addr postfixNibbles (Z.of_nat (length addr) * 2 - Z.of_nat n)
              (fun j => spec_nibble addr (32 - n + j)) 0 n)
    as (r2 & Hr2 & Hiff2); [lia| |].
  { intros k Hk. rewrite Hlen.
    replace (Z.of_nat 16 * 2 - Z.of_nat n + Z.of_nat k) with (Z.of_nat (32 - n + k)) by lia.
    apply nibbleAt_spec; [done|done|lia]. }
  assert (Hpre : (0 <? length prefixNibbles)%nat = false -> forall i, (i < length prefixNibbles)%nat -> False).
  { intros H i Hi. apply Nat.ltb_ge in H. lia. }
  assert (Hpost : (0 <? n)%nat = false -> forall j, (j < n)%nat -> False).
  { intros H j Hj. apply Nat.ltb_ge in H. lia. }
  destruct (0 <? length prefixNibbles)%nat eqn:E1.
  - rewrite Hr1. destruct r1.
    + destruct (0 <? n)%nat eqn:E2.
      * exists r2. split; [done|]. rewrite Hiff2. split.
        -- intros H2. split; [intros i Hi; apply (proj1 Hiff1 eq_refl); lia|].
           intros j Hj. apply H2. lia.
        -- intros [_ H2] j Hj. apply H2. lia.
      * exists true. split; [done|]. split; [|done]. intros _.
        split; [intros i Hi; apply (proj1 Hiff1 eq_refl); lia|].
        intros j Hj. exfalso. by apply (Hpost eq_refl j).
    + exists false. split; [done|]. split; [discriminate|].
      intros [H1 _]. apply Hiff1. intros k Hk. apply H1. lia.
  - destruct (0 <? n)%nat eqn:E2.
    + exists r2. split; [done|]. rewrite Hiff2. split.
      * intros H2. split; [intros i Hi; exfalso; by apply (Hpre eq_refl i)|].
        intros j Hj. apply H2. lia.
      * intros [_ H2] j Hj. apply H2. lia.
    + exists true. split; [done|]. split; [|done]. intros _.
      split; [intros i Hi; exfalso; by apply (Hpre eq_refl i)|].
      intros j Hj. exfalso. by apply (Hpost eq_refl j).
Qed.

Lemma matchesPattern_spec_witness :
  let addr := [202; 254] ++ zeros 13 ++ [190] in
  length addr = 16%nat /\ Forall (fun b => 0 <= b < 256) addr /\
  exists r, matchesPattern [12; 10; 15; 14] [14] addr = Some r /\
    (r = true <-> spec_matches [12; 10; 15; 14] [14] addr).
Proof.
  intros addr.
  assert (H1 : length addr = 16%nat) by reflexivity.
  assert (H2 : Forall (fun b => 0 <= b < 256) addr)
    by (repeat constructor; lia).
  split; [exact H1|]. split; [exact H2|].
  exact (matchesPattern_spec [12; 10; 15; 14] [14] addr H1 H2
           ltac:(simpl; lia) ltac:(simpl; lia)).
Defined.

(* ------------------------------------------------------------------ *)
(** ** saveIdentity *)

Section SaveProofs.

Variable createErr : FS -> string -> option string.
Variable writeErr : FS -> string -> list Z -> option (nat * string).
Variable hexEncode b64Encode b32Encode : list Z -> string.

Lemma io_bind_inr {A B} (m : IO A) (k : A -> IO B) fs y fs' :
  io_bind m k fs = (inr y, fs') ->
  exists x fs1, m fs = (inr x, fs1) /\ k x fs1 = (inr y, fs').
Proof.
  unfold io_bind. destruct (m fs) as [[e|x] fs1]; [discriminate|]. eauto.
Qed.

Lemma osCreate_inr (q : string) fs x fs' :
  osCreate createErr q fs = (inr x, fs') ->
  x = q /\ fs' = <[q := []]> fs /\ createErr fs q = None.
Proof.
  unfold osCreate. destruct (createErr fs q); [discriminate|]. by intros [= -> ->].
Qed.

Lemma fileWrite_inr (f : string) (b : list Z) fs x fs' :
  fileWrite writeErr f b fs = (inr x, fs') ->
  fs' = <[f := default [] (fs !! f) ++ b]> fs /\ writeErr fs f b = None.
Proof.
  unfold fileWrite. destruct (writeErr fs f b) as [[n reason]|]; [discriminate|].
  by intros [= _ <-].
Qed.

Lemma fileWrite_frame (f : string) (b : list Z) fs r fs' :
  fileWrite writeErr f b fs = (r, fs') -> exists c, fs' = <[f := c]> fs.
Proof.
  unfold fileWrite. destruct (writeErr fs f b) as [[n reason]|]; intros [= _ <-]; eauto.
Qed.

Lemma preserves_ret {A} (p : string) (x : A) : preserves p (io_ret x).
Proof. intros fs r fs' H. by injection H as _ <-. Qed.

Lemma preserves_bind {A B} (p : string) (m : IO A) (k : A -> IO B) :
  preserves p m ->
  (forall fs x fs', m fs = (inr x, fs') -> preserves p (k x)) ->
  preserves p (io_bind m k).
Proof.
  intros Hm Hk fs r fs' H. unfold io_bind in H.
  destruct (m fs) as [[e|x] fs1] eqn:E.
  - injection H as _ <-. exact (Hm _ _ _ E).
  - rewrite (Hk _ _ _ E _ _ _ H). exact (Hm _ _ _ E).
Qed.

Lemma preserves_fileWrite (p f : string) (b : list Z) :
  f <> p -> preserves p (fileWrite writeErr f b).
Proof.
  intros Hne fs r fs' H. apply fileWrite_frame in H as [c ->].
  by rewrite lookup_insert_ne.
Qed.

Lemma preserves_fprintf (p f text : string) : f <> p -> preserves p (fprintf writeErr f text).
Proof.
  intros Hne fs r fs' H. unfold fprintf in H. injection H as _ <-.
  destruct (fileWrite writeErr f (string_bytes text) fs) as [r' fs1] eqn:E. simpl.
  exact (preserves_fileWrite p f _ Hne _ _ _ E).
Qed.

Lemma preserves_osCreate (p q : string) : q <> p -> preserves p (osCreate createErr q).
Proof.
  intros Hne fs r fs' H. unfold osCreate in H. destruct (createErr fs q).
  - by injection H as _ <-.
  - injection H as _ <-. by rewrite lookup_insert_ne.
Qed.

Lemma txt_path_ne (path : string) : (path ++ ".txt")%string <> path.
Proof.
  intros H. apply (f_equal String.length) in H.
  induction path as [|a path IH]; simpl in H; [discriminate|]. lia.
Qed.

End SaveProofs.

(** C9 *)
(** Claim C9: when [saveIdentity] succeeds, the binary file at [path] holds
    exactly 64 bytes: the 32 bytes of [X25519Private] followed by the 32
    bytes of [Ed25519Seed], and nothing else (the report goes to the other
    file [path + ".txt"]). *)
Theorem saveIdentity_binary_file (createErr : FS -> string -> option string)
    (writeErr : FS -> string -> list Z -> option (nat * string))
    (hexEncode b64Encode b32Encode : list Z -> string)
    (identity : Identity) (path : string) (fs fs' : FS) :
  length (X25519Private identity) = 32%nat -> length (Ed25519Seed identity) = 32%nat ->
  saveIdentity createErr writeErr hexEncode b64Encode b32Encode identity path fs
    = (inr tt, fs') ->
  fs' !! path = Some (X25519Private identity ++ Ed25519Seed identity) /\
  length (X25519Private identity ++ Ed25519Seed identity) = 64%nat.
Proof.
  intros Hpriv Hseed H. split; [|rewrite length_app; lia].
  unfold saveIdentity in H.
  apply io_bind_inr in H as (file & fs1 & H1 & H).
  apply osCreate_inr in H1 as (-> & -> & _).
  apply io_bind_inr in H as (u1 & fs2 & H2 & H). apply fileWrite_inr in H2 as [-> _].
  apply io_bind_inr in H as (u2 & fs3 & H3 & H). apply fileWrite_inr in H3 as [-> _].
  match type of H with ?m ?fs0 = _ =>
    assert (Hp : preserves path m) end.
  { pose proof (txt_path_ne path) as Hne.
    apply preserves_bind; [by apply preserves_osCreate|].
    intros fs0 x fs1 Hc. apply osCreate_inr in Hc as (-> & _ & _).
    repeat (apply preserves_bind; [by apply preserves_fprintf| intros ? ? ? _]).
    apply preserves_ret. }
  rewrite (Hp _ _ _ H).
  rewrite !lookup_insert_eq. done.
Qed.

Lemma saveIdentity_binary_file_witness :
  let identity := mkIdentity (replicate 32 1) (zeros 32) (replicate 32 2) (zeros 32)
                    (zeros 16) (zeros 16) in
  let fs' := snd (saveIdentity (fun _ _ => None) (fun _ _ _ => None)
                    (fun _ => "") (fun _ => "") (fun _ => "") identity "identity" ∅) in
  saveIdentity (fun _ _ => None) (fun _ _ _ => None) (fun _ => "") (fun _ => "") (fun _ => "")
    identity "identity" ∅ = (inr tt, fs') /\
  fs' !! "identity" = Some (replicate 32 1 ++ replicate 32 2) /\
  length (replicate 32 1 ++ replicate 32 2) = 64%nat.
Proof.
  intros identity fs'.
  assert (H : saveIdentity (fun _ _ => None) (fun _ _ _ => None) (fun _ => "") (fun _ => "")
                (fun _ => "") identity "identity" ∅ = (inr tt, fs')) by reflexivity.
  split; [exact H|].
  exact (saveIdentity_binary_file (fun _ _ => None) (fun _ _ _ => None) (fun _ => "")
           (fun _ => "") (fun _ => "") identity "identity" ∅ fs' eq_refl eq_refl H).
Defined.

(* ------------------------------------------------------------------ *)
(** ** The worker loop: random-source failures *)

(** Proves [alive] of a concrete list of statuses. *)
Ltac solve_alive :=
  unfold alive; repeat (constructor; [first [left; reflexivity | right; reflexivity]|]);
  constructor.

Section WorkerLoop.

Variable sha256 scalarBaseMult ed25519Public : list Z -> list Z.
Variable prefixNibbles postfixNibbles : list Z.

Lemma workerIter_found (draw : option (list Z)) (s : Shared) :
  found s = 1 ->
  workerIter sha256 scalarBaseMult ed25519Public prefixNibbles postfixNibbles draw s
  = (s, WReturn false).
Proof. intros H. unfold workerIter. by rewrite H. Qed.

Lemma workerIter_rand_fatal (s : Shared) :
  found s <> 1 ->
  workerIter sha256 scalarBaseMult ed25519Public prefixNibbles postfixNibbles None s
  = (s, WFatal).
Proof. intros H. unfold workerIter. by destruct (Z.eqb_spec (found s) 1). Qed.

Lemma runWorker_failing (k n : nat) (s : Shared) :
  found s <> 1 ->
  runWorker sha256 scalarBaseMult ed25519Public prefixNibbles postfixNibbles
    failing_source k (S n) s = (s, WFatal).
Proof.
  intros H. simpl. unfold failing_source at 1. by rewrite workerIter_rand_fatal.
Qed.

(** Every step is taken while the program runs. *)
Lemma step_alive (w w' : World) :
  step sha256 scalarBaseMult ed25519Public prefixNibbles postfixNibbles w w' ->
  alive (workers w).
Proof. by intros []. Qed.

End WorkerLoop.

(** C3 *)
(** Claim C3: when the random source cannot supply bytes, key generation
    fails fatally and is not retried. A worker pass whose draw fails makes
    no identity and counts no attempt; the worker stops in the fatal error
    of [rand.Read], the program takes no step after it (no goroutine runs
    again, nothing is retried), and a worker on a source that always fails
    stops so at its first pass. *)
Theorem rand_failure_fatal_spec (sha256 scalarBaseMult ed25519Public : list Z -> list Z)
    (prefixNibbles postfixNibbles : list Z) (w : World) (i : nat) :
  alive (workers w) -> workers w !! i = Some Running -> found (shared w) <> 1 ->
  let w' := mkWorld (shared w) (<[i := Aborted]> (workers w)) (coord w) (accepted w)
              (iterations w) in
  workerIter sha256 scalarBaseMult ed25519Public prefixNibbles postfixNibbles None (shared w)
    = (shared w, WFatal) /\
  step sha256 scalarBaseMult ed25519Public prefixNibbles postfixNibbles w w' /\
  (forall w'', ~ step sha256 scalarBaseMult ed25519Public prefixNibbles postfixNibbles w' w'') /\
  (forall k n, runWorker sha256 scalarBaseMult ed25519Public prefixNibbles postfixNibbles
                 failing_source k (S n) (shared w) = (shared w, WFatal)).
Proof.
  intros Ha Hi Hf w'.
  assert (Hw : workerIter sha256 scalarBaseMult ed25519Public prefixNibbles postfixNibbles
                 None (shared w) = (shared w, WFatal)) by (by apply workerIter_rand_fatal).
  split; [exact Hw|]. split; [|split].
  - assert (E : w' = mkWorld (shared w) (<[i := statusOf WFatal]> (workers w)) (coord w)
                      (accepted w ++ [])
                      (if (found (shared w) =? 1) then iterations w else iterations w)).
    { subst w'. rewrite app_nil_r. by destruct (found (shared w) =? 1). }
    rewrite E. exact (step_worker _ _ _ _ _ w i None (shared w) WFatal Ha Hi Hw).
  - intros w'' Hs. apply step_alive in Hs. subst w'. simpl in Hs.
    unfold alive in Hs. rewrite Forall_lookup in Hs.
    destruct (Hs i Aborted) as [H|H]; [|discriminate|discriminate].
    apply list_lookup_insert_eq. by eapply lookup_lt_Some.
  - intros k n. by apply runWorker_failing.
Qed.

Lemma rand_failure_fatal_spec_witness :
  alive (workers run_store) /\ workers run_store !! 1%nat = Some Running /\
  found (shared run_store) <> 1 /\
  (forall w'', ~ step stub_hash stub_key stub_key [0] []
                   (mkWorld (shared run_store) (<[1%nat := Aborted]> (workers run_store))
                      (coord run_store) (accepted run_store) (iterations run_store)) w'').
Proof.
  assert (Ha : alive (workers run_store)) by solve_alive.
  assert (Hi : workers run_store !! 1%nat = Some Running) by reflexivity.
  assert (Hf : found (shared run_store) <> 1) by discriminate.
  split; [exact Ha|]. split; [exact Hi|]. split; [exact Hf|].
  exact (proj1 (proj2 (proj2 (rand_failure_fatal_spec stub_hash stub_key stub_key [0] []
           run_store 1 Ha Hi Hf)))).
Defined.

(* ------------------------------------------------------------------ *)
(** ** The attempt counter *)

Section Counter.

Variable sha256 scalarBaseMult ed25519Public : list Z -> list Z.
Variable prefixNibbles postfixNibbles : list Z.

Local Abbreviation workerIter' := (workerIter sha256 scalarBaseMult ed25519Public prefixNibbles postfixNibbles).
Local Abbreviation step' := (step sha256 scalarBaseMult ed25519Public prefixNibbles postfixNibbles).
Local Abbreviation reachable' := (reachable sha256 scalarBaseMult ed25519Public prefixNibbles postfixNibbles).

Lemma workerIter_attempts (draw : option (list Z)) (s s' : Shared) (r : WorkerStep) :
  workerIter' draw s = (s', r) ->
  ((found s = 1 \/ draw = None) /\ totalAttempts s' = totalAttempts s) \/
  (found s <> 1 /\ draw <> None /\
   totalAttempts s' = (totalAttempts s + 1) mod uint64_modulus).
Proof.
  unfold workerIter. destruct (Z.eqb_spec (found s) 1) as [Hf|Hf].
  - intros [= <- _]. left. split; [by left|done].
  - destruct draw as [randBuf|]; [|intros [= <- _]; left; split; [by right|done]].
    destruct (matchesPattern _ _ _) as [[|]|].
    + destruct (trySend _ _) as [ch sent]. intros [= <- _]. right. done.
    + intros [= <- _]. right. done.
    + intros [= <- _]. right. done.
Qed.

Lemma step_attempts (w w' : World) :
  step' w w' ->
  (iterations w' = iterations w /\ totalAttempts (shared w') = totalAttempts (shared w)) \/
  (iterations w' = S (iterations w) /\
   totalAttempts (shared w') = (totalAttempts (shared w) + 1) mod uint64_modulus).
Proof.
  intros Hs. destruct Hs as [w i draw s' r _ Hi Hw| w v _ _ _| w v _ _| w v _ _ _]; simpl;
    try (left; done).
  apply workerIter_attempts in Hw as [[Hc Ht]|(Hf & Hd & Ht)].
  - left. split; [|done].
    destruct Hc as [Hc| ->]; [by rewrite Hc|].
    by destruct (found (shared w) =? 1).
  - right. split; [|done].
    destruct (Z.eqb_spec (found (shared w)) 1); [done|].
    by destruct draw.
Qed.

Lemma reachable_attempts (n : nat) (w : World) :
  reachable' (initWorld n) w ->
  totalAttempts (shared w) = Z.of_nat (iterations w) mod uint64_modulus.
Proof.
  induction 1 as [|w1 w2 _ IH Hs]; [reflexivity|].
  apply step_attempts in Hs as [[Hi Ht]|[Hi Ht]]; rewrite Ht, Hi; [done|].
  rewrite IH, Zplus_mod_idemp_l. f_equal. lia.
Qed.

Lemma workerIter_nomatch (randBuf : list Z) (s : Shared) :
  found s <> 1 ->
  matchesPattern prefixNibbles postfixNibbles
    (Address (makeIdentity sha256 scalarBaseMult ed25519Public randBuf)) = Some false ->
  workerIter' (Some randBuf) s = (addAttempt s, WLoop).
Proof.
  intros Hf Hm. unfold workerIter.
  destruct (Z.eqb_spec (found s) 1); [done|]. by rewrite Hm.
Qed.

Lemma step_worker_eq (w w' : World) (i : nat) (draw : option (list Z)) (s' : Shared)
    (r : WorkerStep) :
  alive (workers w) ->
  workers w !! i = Some Running ->
  workerIter' draw (shared w) = (s', r) ->
  w' = mkWorld s' (<[i := statusOf r]> (workers w)) (coord w)
         (accepted w ++
            match r with
            | WReturn true => match resultChan s' with Some v => [v] | None => [] end
            | _ => []
            end)
         (if (found (shared w) =? 1) then iterations w
          else match draw with Some _ => S (iterations w) | None => iterations w end) ->
  step' w w'.
Proof. intros Ha Hi Hw ->. by eapply step_worker. Qed.

End Counter.

(** One worker that never matches, after [m] completed iterations. *)
Lemma counter_step (m : nat) :
  step stub_hash stub_key stub_key [10] []
    (mkWorld (mkShared (Z.of_nat m mod uint64_modulus) 0 None) [Running] CRecv [] m)
    (mkWorld (mkShared (Z.of_nat (S m) mod uint64_modulus) 0 None) [Running] CRecv [] (S m)).
Proof.
  eapply (step_worker_eq _ _ _ _ _ _ _ 0 (Some (zeros 64))); [solve_alive|reflexivity| |].
  - apply workerIter_nomatch; [simpl; lia|]. vm_compute. reflexivity.
  - simpl. f_equal. unfold addAttempt. simpl. f_equal.
    rewrite Zplus_mod_idemp_l. f_equal. lia.
Qed.

Lemma counter_reach (m : nat) :
  reachable stub_hash stub_key stub_key [10] [] (initWorld 1)
    (mkWorld (mkShared (Z.of_nat m mod uint64_modulus) 0 None) [Running] CRecv [] m).
Proof.
  induction m as [|m IH]; [apply reach_refl|].
  eapply reach_step; [exact IH|]. apply counter_step.
Qed.

(** C7 *)
(** Claim C7 fails: the counter is a wrapping uint64. A single worker whose
    addresses never match reaches [totalAttempts = 2^64 - 1] after 2^64 - 1
    completed iterations, and its next completed iteration takes the counter
    down to 0. *)
Lemma attempts_counter_wraps :
  exists w w',
    reachable stub_hash stub_key stub_key [10] [] (initWorld 1) w /\
    step stub_hash stub_key stub_key [10] [] w w' /\
    totalAttempts (shared w') < totalAttempts (shared w).
Proof.
  assert (Hm : Z.of_nat (Z.to_nat (uint64_modulus - 1)) = uint64_modulus - 1)
    by (rewrite Z2Nat.id; [done|unfold uint64_modulus; lia]).
  set (m := Z.to_nat (uint64_modulus - 1)) in *. clearbody m.
  exists (mkWorld (mkShared (Z.of_nat m mod uint64_modulus) 0 None) [Running] CRecv [] m).
  exists (mkWorld (mkShared (Z.of_nat (S m) mod uint64_modulus) 0 None) [Running] CRecv [] (S m)).
  split; [apply counter_reach|]. split; [apply counter_step|].
  simpl. rewrite Nat2Z.inj_succ, Hm, Z.sub_1_r, Z.succ_pred, Z_mod_same_full.
  rewrite Z.mod_small; unfold uint64_modulus; lia.
Qed.

(** C7 (as the code does it) *)
(** In every reachable state the counter equals the number of completed
    iterations modulo 2^64. Each step either completes no iteration and
    leaves the counter alone (a failed random draw, a stop-flag exit, a
    step of [main]) or completes exactly one and adds exactly one modulo
    2^64; while fewer than 2^64 iterations have been completed the counter
    strictly grows at each completed iteration and never decreases. *)
Theorem attempts_counter_spec (sha256 scalarBaseMult ed25519Public : list Z -> list Z)
    (prefixNibbles postfixNibbles : list Z) (n : nat) (w : World) :
  reachable sha256 scalarBaseMult ed25519Public prefixNibbles postfixNibbles (initWorld n) w ->
  totalAttempts (shared w) = Z.of_nat (iterations w) mod uint64_modulus /\
  forall w', step sha256 scalarBaseMult ed25519Public prefixNibbles postfixNibbles w w' ->
    (iterations w' = iterations w /\ totalAttempts (shared w') = totalAttempts (shared w)) \/
    (iterations w' = S (iterations w) /\
     totalAttempts (shared w') = (totalAttempts (shared w) + 1) mod uint64_modulus /\
     (Z.of_nat (iterations w') < uint64_modulus ->
      totalAttempts (shared w) < totalAttempts (shared w'))).
Proof.
  intros Hr. pose proof (reachable_attempts _ _ _ _ _ n w Hr) as Hc.
  split; [exact Hc|]. intros w' Hs.
  destruct (step_attempts _ _ _ _ _ w w' Hs) as [H|[Hi Ht]]; [by left|].
  right. split; [done|]. split; [done|]. intros Hlt.
  rewrite Ht, Hc, Zplus_mod_idemp_l, Hi in *.
  rewrite !Z.mod_small; lia.
Qed.

Lemma attempts_counter_spec_witness :
  reachable stub_hash stub_key stub_key [10] [] (initWorld 1)
    (mkWorld (mkShared (Z.of_nat 3 mod uint64_modulus) 0 None) [Running] CRecv [] 3) /\
  step stub_hash stub_key stub_key [10] []
    (mkWorld (mkShared (Z.of_nat 3 mod uint64_modulus) 0 None) [Running] CRecv [] 3)
    (mkWorld (mkShared (Z.of_nat 4 mod uint64_modulus) 0 None) [Running] CRecv [] 4) /\
  totalAttempts (shared
    (mkWorld (mkShared (Z.of_nat 3 mod uint64_modulus) 0 None) [Running] CRecv [] 3)) <
  totalAttempts (shared
    (mkWorld (mkShared (Z.of_nat 4 mod uint64_modulus) 0 None) [Running] CRecv [] 4)).
Proof.
  pose proof (counter_reach 3) as H. pose proof (counter_step 3) as Hs.
  split; [exact H|]. split; [exact Hs|].
  destruct (proj2 (attempts_counter_spec stub_hash stub_key stub_key [10] [] 1 _ H) _ Hs)
    as [[Hi _]|(_ & _ & Hlt)]; [discriminate Hi|].
  apply Hlt. unfold uint64_modulus. vm_compute. reflexivity.
Defined.

(* ------------------------------------------------------------------ *)
(** ** The result hand-off *)

Section Handoff.

Variable sha256 scalarBaseMult ed25519Public : list Z -> list Z.
Variable prefixNibbles postfixNibbles : list Z.

Local Abbreviation workerIter' := (workerIter sha256 scalarBaseMult ed25519Public prefixNibbles postfixNibbles).
Local Abbreviation step' := (step sha256 scalarBaseMult ed25519Public prefixNibbles postfixNibbles).
Local Abbreviation reachable' := (reachable sha256 scalarBaseMult ed25519Public prefixNibbles postfixNibbles).

(** A worker pass never touches [found], and changes the channel only by a
    successful send into an empty slot. *)
Lemma workerIter_chan (draw : option (list Z)) (s s' : Shared) (r : WorkerStep) :
  workerIter' draw s = (s', r) ->
  found s' = found s /\
  ((r = WReturn true /\ resultChan s = None /\ exists v, resultChan s' = Some v) \/
   (r <> WReturn true /\ resultChan s' = resultChan s)).
Proof.
  unfold workerIter. destruct (Z.eqb_spec (found s) 1) as [Hf|Hf].
  - intros [= <- <-]. split; [done|]. right. split; [discriminate|done].
  - destruct draw as [randBuf|]; [|intros [= <- <-]; split; [done|right; split; [discriminate|done]]].
    destruct (matchesPattern _ _ _) as [[|]|].
    + unfold trySend, addAttempt; simpl. destruct (resultChan s) as [c|] eqn:Ec.
      * intros [= <- <-]. split; [done|]. right. split; [discriminate|done].
      * intros [= <- <-]. split; [done|]. left. eauto.
    + intros [= <- <-]. split; [done|]. right. split; [discriminate|done].
    + intros [= <- <-]. split; [done|]. right. split; [discriminate|done].
Qed.

(** What [main] can know about the hand-off at each point. *)
Definition handoff_inv (w : World) : Prop :=
  (coord w = CRecv ->
     (resultChan (shared w) = None /\ accepted w = []) \/
     (exists v, resultChan (shared w) = Some v /\ accepted w = [v])) /\
  (forall v, coord w = CStore v \/ coord w = CJoin v \/ coord w = CReturned v ->
     exists rest, accepted w = v :: rest) /\
  (forall v, coord w = CJoin v \/ coord w = CReturned v -> found (shared w) = 1) /\
  (forall v, coord w = CReturned v -> Forall (fun st => st = Done) (workers w)).

Lemma handoff_inv_init (n : nat) : handoff_inv (initWorld n).
Proof.
  unfold handoff_inv, initWorld; simpl.
  split; [by left|]. split; [intros v [H|[H|H]]; discriminate|].
  split; [intros v [H|H]; discriminate|]. discriminate.
Qed.

Lemma handoff_inv_step (w w' : World) : handoff_inv w -> step' w w' -> handoff_inv w'.
Proof.
  intros (I1 & I2 & I3 & I4) Hs.
  destruct Hs as [w i draw s' r _ Hi Hw| w v _ Hc Hv| w v _ Hc| w v _ Hc Hall];
    unfold handoff_inv; simpl.
  - apply workerIter_chan in Hw as [Hf [(-> & Hn & v' & Hv')|(Hr & Hch)]].
    + rewrite Hv'. split; [|split; [|split]].
      * intros Hc. destruct (I1 Hc) as [[_ ->]|(v & Hv & _)]; [|congruence].
        right. eauto.
      * intros v Hv. destruct (I2 v Hv) as [rest ->]. eexists. done.
      * intros v Hv. rewrite Hf. eauto.
      * intros v Hv. pose proof (I4 v Hv) as Hd. rewrite Forall_lookup in Hd.
        by pose proof (Hd i Running Hi).
    + assert (Hacc : accepted w ++
                match r with
                | WReturn true => match resultChan s' with Some v => [v] | None => [] end
                | _ => []
                end = accepted w).
      { destruct r as [|[|]| |]; [| by contradiction Hr | | |]; by rewrite app_nil_r. }
      rewrite Hacc, Hch. split; [|split; [|split]].
      * done.
      * done.
      * intros v Hv. rewrite Hf. eauto.
      * intros v Hv. pose proof (I4 v Hv) as Hd. rewrite Forall_lookup in Hd.
        by pose proof (Hd i Running Hi).
  - split; [|split; [|split]].
    + discriminate.
    + intros v' [Hv'|[Hv'|Hv']]; [|discriminate|discriminate].
      injection Hv' as <-. destruct (I1 Hc) as [[Hn _]|(v' & Hv' & Ha)]; [congruence|].
      rewrite Hv in Hv'. injection Hv' as <-. by exists [].
    + intros v' [Hv'|Hv']; discriminate.
    + discriminate.
  - split; [|split; [|split]].
    + discriminate.
    + intros v' [Hv'|[Hv'|Hv']]; [discriminate| |discriminate].
      injection Hv' as <-. apply I2. by left.
    + intros v' [Hv'|Hv']; [done|discriminate].
    + discriminate.
  - split; [|split; [|split]].
    + discriminate.
    + intros v' [Hv'|[Hv'|Hv']]; [discriminate|discriminate|].
      injection Hv' as <-. apply I2. by right; left.
    + intros v' [Hv'|Hv']; [discriminate|]. injection Hv' as <-. apply (I3 v). by left.
    + intros v' Hv'. done.
Qed.

Lemma handoff_inv_reachable (n : nat) (w : World) :
  reachable' (initWorld n) w -> handoff_inv w.
Proof.
  induction 1 as [|w1 w2 _ IH Hs]; [apply handoff_inv_init|].
  by eapply handoff_inv_step.
Qed.

End Handoff.

(** The run of the pool described at [run_id0], step by step. *)
Lemma run_store_reach :
  reachable stub_hash stub_key stub_key [0] [] (initWorld 2) run_store.
Proof.
  apply (reach_step _ _ _ _ _ _
           (mkWorld (mkShared 1 0 (Some run_id0)) [Done; Running] CRecv [run_id0] 1)).
  - apply (reach_step _ _ _ _ _ _ (initWorld 2)); [apply reach_refl|].
    eapply (step_worker_eq _ _ _ _ _ _ _ 0 (Some (zeros 64)));
      [solve_alive|reflexivity|cbv; reflexivity|reflexivity].
  - apply (step_recv _ _ _ _ _
             (mkWorld (mkShared 1 0 (Some run_id0)) [Done; Running] CRecv [run_id0] 1)
             run_id0); [solve_alive|reflexivity|reflexivity].
Qed.

Lemma run_join_reach :
  reachable stub_hash stub_key stub_key [0] [] (initWorld 2) run_join.
Proof.
  apply (reach_step _ _ _ _ _ _ run_store); [apply run_store_reach|].
  apply (step_store _ _ _ _ _ run_store run_id0); [solve_alive|reflexivity].
Qed.

Lemma run_returned_reach :
  reachable stub_hash stub_key stub_key [0] [] (initWorld 2) run_returned.
Proof.
  apply (reach_step _ _ _ _ _ _
           (mkWorld (mkShared 1 1 None) [Done; Done] (CJoin run_id0) [run_id0] 1)).
  - apply (reach_step _ _ _ _ _ _ run_join); [apply run_join_reach|].
    eapply (step_worker_eq _ _ _ _ _ _ _ 1 None);
      [solve_alive|reflexivity|cbv; reflexivity|reflexivity].
  - apply (step_join _ _ _ _ _
             (mkWorld (mkShared 1 1 None) [Done; Done] (CJoin run_id0) [run_id0] 1) run_id0);
      [solve_alive|reflexivity|repeat constructor].
Qed.

Lemma run_second_reach :
  reachable stub_hash stub_key stub_key [0] [] (initWorld 2) run_second.
Proof.
  apply (reach_step _ _ _ _ _ _ run_store); [apply run_store_reach|].
  eapply (step_worker_eq _ _ _ _ _ _ _ 1 (Some (replicate 64 1)));
    [solve_alive|reflexivity|cbv; reflexivity|reflexivity].
Qed.

(** C5 (as stated): with two workers, a second Identity can be accepted into
    the one-slot channel. Worker 0 matches and sends; [main] receives, which
    empties the buffer; before [main] stores the stop flag, worker 1 matches
    and its non-blocking send finds the slot empty and succeeds. That value
    stays in the buffer and is never read. *)
Lemma second_publish_accepted :
  exists w, reachable stub_hash stub_key stub_key [0] [] (initWorld 2) w /\
    length (accepted w) = 2%nat /\
    (exists v, coord w = CStore v) /\ resultChan (shared w) <> None.
Proof.
  exists run_second. split; [apply run_second_reach|]. split; [reflexivity|].
  split; [eexists; reflexivity|]. discriminate.
Qed.

(** C5 (amended): a publish never blocks; while the slot holds a value a
    later publish is dropped and leaves it in place. In every state reachable
    from the start of the search, while [main] waits on the channel at most
    the one value in the slot has been accepted, and when [main] returns an
    Identity it is the first one accepted, the stop flag is set and every
    worker has terminated. *)
Theorem result_handoff_spec (sha256 scalarBaseMult ed25519Public : list Z -> list Z)
    (prefixNibbles postfixNibbles : list Z) (n : nat) (w : World) :
  reachable sha256 scalarBaseMult ed25519Public prefixNibbles postfixNibbles (initWorld n) w ->
  (forall v, trySend v None = (Some v, true)) /\
  (forall v c, trySend v (Some c) = (Some c, false)) /\
  (coord w = CRecv ->
     accepted w = [] \/ exists v, resultChan (shared w) = Some v /\ accepted w = [v]) /\
  (forall v, coord w = CReturned v ->
     head (accepted w) = Some v /\ found (shared w) = 1 /\
     Forall (fun st => st = Done) (workers w)).
Proof.
  intros Hr. apply handoff_inv_reachable in Hr as (I1 & I2 & I3 & I4).
  split; [done|]. split; [done|]. split.
  - intros Hc. destruct (I1 Hc) as [[_ ->]|?]; [by left|by right].
  - intros v Hc. split; [|split].
    + destruct (I2 v (or_intror (or_intror Hc))) as [rest ->]. done.
    + apply (I3 v). by right.
    + by apply (I4 v).
Qed.

Lemma result_handoff_spec_witness :
  reachable stub_hash stub_key stub_key [0] [] (initWorld 2) run_returned /\
  head (accepted run_returned) = Some run_id0 /\ found (shared run_returned) = 1 /\
  Forall (fun st => st = Done) (workers run_returned).
Proof.
  pose proof run_returned_reach as H.
  split; [exact H|].
  exact (proj2 (proj2 (proj2 (result_handoff_spec stub_hash stub_key stub_key [0] [] 2
           run_returned H))) run_id0 eq_refl).
Defined.

(* ------------------------------------------------------------------ *)
(** ** Further properties of the program *)

Lemma hextable_lookup (v : Z) :
  0 <= v < 16 -> hextable !!! Z.to_nat v = if v <? 10 then 48 + v else 87 + v.
Proof.
  intros Hv. assert (Hn : (Z.to_nat v < 16)%nat) by lia.
  rewrite <- (Z2Nat.id v) by lia. generalize (Z.to_nat v) Hn. clear Hv Hn. intros n Hn.
  rewrite Nat2Z.id.
  do 16 (destruct n as [|n]; [reflexivity|]). lia.
Qed.

Lemma hextable_range (n : nat) : 0 <= hextable !!! n < 256.
Proof.
  rewrite list_lookup_total_alt. destruct (hextable !! n) as [x|] eqn:E; simpl; [|lia].
  assert (Hall : Forall (fun c => 0 <= c < 256) hextable) by (repeat constructor; lia).
  rewrite Forall_lookup in Hall. exact (Hall n x E).
Qed.

Lemma length_hexEncodeBytes (l : list Z) : length (hexEncodeBytes l) = (2 * length l)%nat.
Proof. induction l as [|v l IH]; simpl; lia. Qed.

Lemma hexEncodeBytes_lookup (l : list Z) (k : nat) :
  hexEncodeBytes l !! k =
  (fun b => hextable !!! Z.to_nat (if Nat.even k then Z.shiftr b 4 else Z.land b 15))
    <$> l !! (k / 2)%nat.
Proof.
  revert k; induction l as [|v l IH]; intros k.
  - destruct k as [|[|k]]; done.
  - destruct k as [|[|k]]; [done|done|].
    change (hexEncodeBytes (v :: l) !! S (S k)) with (hexEncodeBytes l !! k). rewrite IH.
    replace (S (S k) / 2)%nat with (S (k / 2)) by
      (replace (S (S k)) with (k + 1 * 2)%nat by lia; rewrite Nat.div_add; lia).
    done.
Qed.

Lemma hexEncodeBytes_range (l : list Z) : Forall (fun c => 0 <= c < 256) (hexEncodeBytes l).
Proof.
  induction l as [|v l IH]; simpl; [constructor|].
  constructor; [apply hextable_range|]. constructor; [apply hextable_range|done].
Qed.

Lemma string_bytes_bytes_string (b : list Z) :
  Forall (fun c => 0 <= c < 256) b -> string_bytes (bytes_string b) = b.
Proof.
  intros Hb. unfold string_bytes, bytes_string.
  rewrite String.list_ascii_of_string_of_list_ascii, map_map.
  induction Hb as [|c b Hc Hb IH]; simpl; [done|].
  rewrite IH, Ascii.nat_ascii_embedding by lia. f_equal. lia.
Qed.

Lemma string_bytes_EncodeToString (l : list Z) :
  string_bytes (EncodeToString l) = hexEncodeBytes l.
Proof. apply string_bytes_bytes_string, hexEncodeBytes_range. Qed.

Lemma spec_nibble_range (addr : list Z) (k : nat) :
  Forall (fun b => 0 <= b < 256) addr -> (k < 2 * length addr)%nat ->
  0 <= spec_nibble addr k < 16.
Proof.
  intros Hb Hk. unfold spec_nibble.
  destruct (lookup_lt_is_Some_2 addr (k / 2)) as [b Hl]; [apply Nat.Div0.div_lt_upper_bound; lia|].
  rewrite (list_lookup_total_correct _ _ _ Hl).
  rewrite Forall_lookup in Hb. specialize (Hb _ _ Hl).
  destruct (Nat.even k); [split; [apply Z.div_pos|apply Z.div_lt_upper_bound]; lia|].
  apply Z.mod_pos_bound. lia.
Qed.

Lemma hexEncodeBytes_nibble (addr : list Z) (k : nat) :
  Forall (fun b => 0 <= b < 256) addr -> (k < 2 * length addr)%nat ->
  hexEncodeBytes addr !! k = Some (hextable !!! Z.to_nat (spec_nibble addr k)).
Proof.
  intros Hb Hk. rewrite hexEncodeBytes_lookup. unfold spec_nibble.
  destruct (lookup_lt_is_Some_2 addr (k / 2)) as [b Hl]; [apply Nat.Div0.div_lt_upper_bound; lia|].
  rewrite Hl, (list_lookup_total_correct _ _ _ Hl). simpl.
  rewrite Forall_lookup in Hb. specialize (Hb _ _ Hl).
  assert (H15 : 15 = Z.ones 4) by reflexivity.
  rewrite H15, Z.land_ones, Z.shiftr_div_pow2 by lia. done.
Qed.

Lemma hexchar_eq (v c : Z) :
  0 <= v < 16 -> is_digit c || is_lower_hex c || is_upper_hex c = true ->
  (hextable !!! Z.to_nat v = (if (65 <=? c) && (c <=? 90) then c + 32 else c)
   <-> v = hex_digit_value c).
Proof.
  intros Hv Hc. rewrite hextable_lookup by done.
  unfold hex_digit_value. unfold is_digit, is_lower_hex, is_upper_hex in Hc.
  destruct (Z.ltb_spec v 10); split_leb; simpl in *; try discriminate; split; intros; lia.
Qed.

Lemma prefix_of_lookup (l1 l2 : list Z) :
  l1 `prefix_of` l2 <->
  (length l1 <= length l2)%nat /\ forall j, (j < length l1)%nat -> l2 !! j = l1 !! j.
Proof.
  split.
  - intros [k ->]. rewrite length_app. split; [lia|]. intros j Hj.
    by rewrite lookup_app_l.
  - intros [Hlen H]. exists (drop (length l1) l2). apply list_eq. intros i.
    rewrite lookup_app. destruct (l1 !! i) as [x|] eqn:E.
    + rewrite <- E. apply H. apply lookup_lt_is_Some_1. by rewrite E.
    + apply lookup_ge_None_1 in E. rewrite lookup_drop. f_equal. lia.
Qed.

Lemma suffix_of_lookup (l1 l2 : list Z) :
  l1 `suffix_of` l2 <->
  (length l1 <= length l2)%nat /\
  forall j, (j < length l1)%nat -> l2 !! (length l2 - length l1 + j)%nat = l1 !! j.
Proof.
  split.
  - intros [k ->]. rewrite length_app. split; [lia|]. intros j Hj.
    rewrite lookup_app_r by lia. f_equal. lia.
  - intros [Hlen H]. exists (take (length l2 - length l1) l2). apply list_eq. intros i.
    destruct (decide (i < length l2 - length l1)%nat) as [Hi|Hi].
    + rewrite lookup_app_l by (rewrite length_take; lia). by rewrite lookup_take_lt by lia.
    + rewrite lookup_app_r by (rewrite length_take; lia). rewrite length_take.
      replace (Nat.min (length l2 - length l1) (length l2)) with (length l2 - length l1)%nat by lia.
      destruct (decide (i - (length l2 - length l1) < length l1)%nat) as [Hj|Hj].
      * rewrite <- H by done. f_equal. lia.
      * rewrite !lookup_ge_None_2 by lia. done.
Qed.

(** [matchesPattern] against the nibbles of a 16-byte address (the same
    statement as the matching property proved above, for reuse). *)
Lemma matchesPattern_exact (prefixNibbles postfixNibbles addr : list Z) :
  length addr = 16%nat -> Forall (fun b => 0 <= b < 256) addr ->
  (length prefixNibbles <= 32)%nat -> (length postfixNibbles <= 32)%nat ->
  exists r, matchesPattern prefixNibbles postfixNibbles addr = Some r /\
    (r = true <-> spec_matches prefixNibbles postfixNibbles addr).
Proof.
  intros Hlen Hbytes Hp Hs. unfold matchesPattern, spec_matches.
  destruct (nibbleLoop_spec addr prefixNibbles 0 (spec_nibble addr) 0 (length prefixNibbles))
    as (r1 & Hr1 & Hiff1); [lia| intros k Hk; rewrite Z.add_0_l; apply nibbleAt_spec; [done|done|lia]|].
  set (n := length postfixNibbles).
  destruct (nibbleLoop_spec addr postfixNibbles (Z.of_nat (length addr) * 2 - Z.of_nat n)
              (fun j => spec_nibble addr (32 - n + j)) 0 n)
    as (r2 & Hr2 & Hiff2); [lia| |].
  { intros k Hk. rewrite Hlen.
    replace (Z.of_nat 16 * 2 - Z.of_nat n + Z.of_nat k) with (Z.of_nat (32 - n + k)) by lia.
    apply nibbleAt_spec; [done|done|lia]. }
  destruct (0 <? length prefixNibbles)%nat eqn:E1;
    [|apply Nat.ltb_ge in E1];
  destruct (0 <? n)%nat eqn:E2; try apply Nat.ltb_ge in E2.
  - rewrite Hr1. destruct r1.
    + exists r2. split; [done|]. rewrite Hiff2. split.
      * intros H2. split; [intros i Hi; apply (proj1 Hiff1 eq_refl); lia|].
        intros j Hj. apply H2. lia.
      * intros [_ H2] j Hj. apply H2. lia.
    + exists false. split; [done|]. split; [discriminate|].
      intros [H1 _]. apply Hiff1. intros k Hk. apply H1. lia.
  - rewrite Hr1. destruct r1.
    + exists true. split; [done|]. split; [|done]. intros _.
      split; [intros i Hi; apply (proj1 Hiff1 eq_refl); lia|]. intros j Hj. lia.
    + exists false. split; [done|]. split; [discriminate|].
      intros [H1 _]. apply Hiff1. intros k Hk. apply H1. lia.
  - exists r2. split; [done|]. rewrite Hiff2. split.
    + intros H2. split; [intros i Hi; lia|]. intros j Hj. apply H2. lia.
    + intros [_ H2] j Hj. apply H2. lia.
  - exists true. split; [done|]. split; [|done]. intros _.
    split; intros; lia.
Qed.

(** A validated pattern parses, after lowercasing, to the values of its
    hex digits. *)
Lemma parsePattern_lookup (str : string) :
  isHex str = true ->
  length (parsePattern str) = String.length str /\
  forall j c, string_bytes str !! j = Some c -> parsePattern str !! j = Some (hex_digit_value c).
Proof.
  intros Hhex. unfold parsePattern.
  destruct (String.eqb_spec str "") as [->|Hne].
  - split; [done|]. intros j c Hc. done.
  - split.
    + unfold hexToNibbles. rewrite length_hexToNibbles_loop. unfold zeros, toLower.
      by rewrite length_replicate, length_map, length_string_bytes.
    + intros j c Hc.
      pose proof (isHex_lookup str j c Hhex Hc) as Hx.
      rewrite (hexToNibbles_lookup _ j (if (65 <=? c) && (c <=? 90) then c + 32 else c)).
      * f_equal. unfold hex_digit_value, spec_lower_nibble.
        unfold is_digit, is_lower_hex, is_upper_hex in Hx.
        split_leb; simpl in *; try discriminate; lia.
      * unfold toLower. by rewrite lookup_map_Z, Hc.
Qed.

Lemma length_toLower (str : string) : length (toLower str) = String.length str.
Proof. unfold toLower. by rewrite length_map, length_string_bytes. Qed.

(** Nibble-wise agreement with a parsed pattern is character-wise agreement
    of the hex text with the lowercased pattern. *)
Lemma pattern_agree (str : string) (H : list Z) (g : nat -> Z) (off : nat) :
  isHex str = true ->
  (forall j, (j < String.length str)%nat ->
     0 <= g j < 16 /\ H !! (off + j)%nat = Some (hextable !!! Z.to_nat (g j))) ->
  (forall j, (j < length (parsePattern str))%nat -> g j = parsePattern str !!! j) <->
  (forall j, (j < length (toLower str))%nat -> H !! (off + j)%nat = toLower str !! j).
Proof.
  intros Hhex Hg. destruct (parsePattern_lookup str Hhex) as [Hlen Hp].
  rewrite Hlen, length_toLower.
  assert (Hj : forall j, (j < String.length str)%nat ->
    (g j = parsePattern str !!! j <-> H !! (off + j)%nat = toLower str !! j)).
  { intros j Hj. destruct (lookup_lt_is_Some_2 (string_bytes str) j) as [c Hc];
      [by rewrite length_string_bytes|].
    destruct (Hg j Hj) as [Hr ->].
    rewrite (list_lookup_total_correct _ _ _ (Hp j c Hc)).
    unfold toLower. rewrite lookup_map_Z, Hc. simpl.
    rewrite <- hexchar_eq by (done || exact (isHex_lookup str j c Hhex Hc)).
    split; [by intros ->|by intros [= ->]]. }
  split; intros Hall j Hlt; apply Hj; auto.
Qed.

Lemma printed_address_matches_aux (prefix postfix : string) (addr : list Z) :
  isHex prefix = true -> (String.length prefix <= 32)%nat ->
  isHex postfix = true -> (String.length postfix <= 32)%nat ->
  length addr = 16%nat -> Forall (fun b => 0 <= b < 256) addr ->
  matchesPattern (parsePattern prefix) (parsePattern postfix) addr = Some true <->
  toLower prefix `prefix_of` string_bytes (EncodeToString addr) /\
  toLower postfix `suffix_of` string_bytes (EncodeToString addr).
Proof.
  intros Hp Hpl Hs Hsl Hlen Hb.
  destruct (parsePattern_lookup prefix Hp) as [Lp _].
  destruct (parsePattern_lookup postfix Hs) as [Ls _].
  destruct (matchesPattern_exact (parsePattern prefix) (parsePattern postfix) addr)
    as (r & -> & Hiff); [done|done|lia|lia|].
  rewrite string_bytes_EncodeToString, prefix_of_lookup, suffix_of_lookup,
    length_hexEncodeBytes, !length_toLower, Hlen.
  transitivity (r = true); [split; [by intros [= ->]|by intros ->]|].
  rewrite Hiff. unfold spec_matches.
  rewrite (pattern_agree prefix (hexEncodeBytes addr) (spec_nibble addr) 0 Hp).
  2:{ intros j Hj. split; [apply spec_nibble_range; [done|lia]|].
      apply hexEncodeBytes_nibble; [done|lia]. }
  rewrite (pattern_agree postfix (hexEncodeBytes addr)
             (fun j => spec_nibble addr (32 - length (parsePattern postfix) + j)%nat)
             (32 - String.length postfix)%nat Hs).
  2:{ intros j Hj. rewrite Ls. split; [apply spec_nibble_range; [done|lia]|].
      apply hexEncodeBytes_nibble; [done|lia]. }
  rewrite !length_toLower.
  replace (2 * 16 - String.length postfix)%nat with (32 - String.length postfix)%nat by lia.
  split; [intros [H1 H2]; split; [split; [lia|exact H1]|split; [lia|exact H2]]
        |intros [[_ H1] [_ H2]]; split; [exact H1|exact H2]].
Qed.

(** The printed address and the search agree: for hex patterns of at most
    32 characters and a 16-byte address, [matchesPattern] accepts exactly
    when the lower-cased prefix begins, and the lower-cased postfix ends,
    the hex string [main] prints for the address. *)
Theorem printed_address_matches (prefix postfix : string) (addr : list Z) :
  isHex prefix = true -> (String.length prefix <= 32)%nat ->
  isHex postfix = true -> (String.length postfix <= 32)%nat ->
  length addr = 16%nat -> Forall (fun b => 0 <= b < 256) addr ->
  matchesPattern (parsePattern prefix) (parsePattern postfix) addr = Some true <->
  toLower prefix `prefix_of` string_bytes (EncodeToString addr) /\
  toLower postfix `suffix_of` string_bytes (EncodeToString addr).
Proof. apply printed_address_matches_aux. Qed.

Lemma hextable_inj (a b : Z) :
  0 <= a < 16 -> 0 <= b < 16 -> hextable !!! Z.to_nat a = hextable !!! Z.to_nat b -> a = b.
Proof.
  intros Ha Hb. rewrite !hextable_lookup by done.
  destruct (Z.ltb_spec a 10), (Z.ltb_spec b 10); lia.
Qed.

Lemma hexEncodeBytes_inj (l1 l2 : list Z) :
  Forall (fun b => 0 <= b < 256) l1 -> Forall (fun b => 0 <= b < 256) l2 ->
  hexEncodeBytes l1 = hexEncodeBytes l2 -> l1 = l2.
Proof.
  intros H1. revert l2. induction H1 as [|v l1 Hv H1 IH]; intros [|w l2] H2 Heq;
    simpl in Heq; try discriminate; [done|].
  inversion H2 as [|? ? Hw H2']; subst.
  injection Heq as Ehi Elo Erest. f_equal; [|by apply IH].
  assert (H15 : 15 = Z.ones 4) by reflexivity.
  rewrite !Z.shiftr_div_pow2 in Ehi by lia.
  rewrite H15, !Z.land_ones in Elo by lia.
  change (2 ^ 4) with 16 in *.
  apply hextable_inj in Ehi; [|split; [apply Z.div_pos|apply Z.div_lt_upper_bound]; lia
                              |split; [apply Z.div_pos|apply Z.div_lt_upper_bound]; lia].
  apply hextable_inj in Elo; [|apply Z.mod_pos_bound; lia|apply Z.mod_pos_bound; lia].
  rewrite (Z.div_mod v 16), (Z.div_mod w 16) by lia. lia.
Qed.

Lemma hexEncodeBytes_lower (addr : list Z) :
  Forall (fun b => 0 <= b < 256) addr ->
  Forall (fun c => is_digit c || is_lower_hex c = true) (hexEncodeBytes addr).
Proof.
  intros Hb. apply Forall_lookup. intros k c Hk.
  assert (Hlt : (k < 2 * length addr)%nat).
  { rewrite <- length_hexEncodeBytes. by eapply lookup_lt_Some. }
  rewrite hexEncodeBytes_nibble in Hk by done. injection Hk as <-.
  pose proof (spec_nibble_range addr k Hb Hlt) as Hr.
  rewrite hextable_lookup by done. unfold is_digit, is_lower_hex.
  destruct (Z.ltb_spec (spec_nibble addr k) 10); split_leb; simpl; try done; lia.
Qed.

(** A printed address can be fed back as a prefix: it passes
    [validateInputs], and the only address it then matches is itself. *)
Theorem printed_address_roundtrip (addr addr' : list Z) (workers : Z) :
  length addr = 16%nat -> Forall (fun b => 0 <= b < 256) addr ->
  length addr' = 16%nat -> Forall (fun b => 0 <= b < 256) addr' -> 1 <= workers ->
  validateInputs (EncodeToString addr) "" workers = None /\
  (matchesPattern (parsePattern (EncodeToString addr)) [] addr' = Some true <-> addr' = addr).
Proof.
  intros Hl Hb Hl' Hb' Hw.
  pose proof (hexEncodeBytes_lower addr Hb) as Hlow.
  assert (Hlen : String.length (EncodeToString addr) = 32%nat).
  { by rewrite <- length_string_bytes, string_bytes_EncodeToString, length_hexEncodeBytes, Hl. }
  assert (Hhex : isHex (EncodeToString addr) = true).
  { unfold isHex. rewrite string_bytes_EncodeToString, forallb_forall.
    intros c Hc. rewrite <- list_elem_of_In in Hc.
    rewrite Forall_forall in Hlow. specialize (Hlow c Hc).
    by rewrite Hlow. }
  assert (Htl : toLower (EncodeToString addr) = hexEncodeBytes addr).
  { unfold toLower. rewrite string_bytes_EncodeToString.
    induction Hlow as [|c l Hc _ IH]; [done|]. simpl. rewrite IH. f_equal.
    unfold is_digit, is_lower_hex in Hc. split_leb; simpl in *; try discriminate; lia. }
  split.
  - unfold validateInputs. rewrite Hlen, Hhex.
    destruct (String.eqb_spec (EncodeToString addr) "") as [He|_];
      [rewrite He in Hlen; discriminate|].
    simpl. destruct (Z.ltb_spec workers 1); [lia|done].
  - rewrite (printed_address_matches_aux (EncodeToString addr) "" addr') by
      (first [done | rewrite ?Hlen; simpl; lia]).
    rewrite Htl, string_bytes_EncodeToString. split.
    + intros [Hpre _]. apply prefix_of_lookup in Hpre as [_ Hpre].
      symmetry. apply hexEncodeBytes_inj; [done|done|].
      apply list_eq. intros i.
      destruct (decide (i < 32)%nat) as [Hi|Hi].
      * symmetry. apply Hpre. rewrite length_hexEncodeBytes. lia.
      * rewrite !lookup_ge_None_2 by (rewrite length_hexEncodeBytes; lia). done.
    + intros ->. split; [done|]. exists (hexEncodeBytes addr). by rewrite app_nil_r.
Qed.

Section SaveCases.

Variable createErr : FS -> string -> option string.
Variable writeErr : FS -> string -> list Z -> option (nat * string).
Variable hexEncode b64Encode b32Encode : list Z -> string.
Variable identity : Identity.
Variable path : string.

Local Abbreviation save :=
  (saveIdentity createErr writeErr hexEncode b64Encode b32Encode identity path).

Lemma bind_osCreate_ok {A} (q : string) (k : string -> IO A) (fs : FS) :
  createErr fs q = None ->
  io_bind (osCreate createErr q) k fs = k q (<[q := []]> fs).
Proof. intros H. unfold io_bind, osCreate. by rewrite H. Qed.

Lemma bind_osCreate_err {A} (q reason : string) (k : string -> IO A) (fs : FS) :
  createErr fs q = Some reason ->
  io_bind (osCreate createErr q) k fs = (inl ("open " ++ q ++ ": " ++ reason)%string, fs).
Proof. intros H. unfold io_bind, osCreate. by rewrite H. Qed.

Lemma bind_fileWrite_ok {A} (f : string) (b c : list Z) (k : unit -> IO A) (m : FS) :
  writeErr (<[f := c]> m) f b = None ->
  io_bind (fileWrite writeErr f b) k (<[f := c]> m) = k tt (<[f := c ++ b]> m).
Proof.
  intros H. unfold io_bind, fileWrite. rewrite H, lookup_insert_eq.
  change (default [] (Some c)) with c. by rewrite insert_insert_eq.
Qed.

Lemma bind_fileWrite_err {A} (f : string) (b c : list Z) (n : nat) (reason : string)
    (k : unit -> IO A) (m : FS) :
  writeErr (<[f := c]> m) f b = Some (n, reason) ->
  io_bind (fileWrite writeErr f b) k (<[f := c]> m)
  = (inl ("write " ++ f ++ ": " ++ reason)%string, <[f := c ++ take n b]> m).
Proof.
  intros H. unfold io_bind, fileWrite. rewrite H, lookup_insert_eq.
  change (default [] (Some c)) with c. by rewrite insert_insert_eq.
Qed.

(** An action that always succeeds. *)
Definition always_ok (m : IO unit) : Prop := forall fs, fst (m fs) = inr tt.

Lemma always_ok_ret : always_ok (io_ret tt).
Proof. done. Qed.

Lemma always_ok_fprintf (f text : string) (k : IO unit) :
  always_ok k -> always_ok (fprintf writeErr f text ;;; k).
Proof. intros Hk fs. unfold io_bind, fprintf. apply Hk. Qed.

(** [saveIdentity] touches no file but [path] and [path.txt]. *)
Lemma saveIdentity_frame (fs fs' : FS) (r : string + unit) (q : string) :
  save fs = (r, fs') -> q <> path -> q <> (path ++ ".txt")%string -> fs' !! q = fs !! q.
Proof.
  intros H Hq Hq'. revert fs r fs' H. unfold saveIdentity.
  apply preserves_bind; [by apply preserves_osCreate|].
  intros fs0 x fs1 Hc. apply osCreate_inr in Hc as (-> & _ & _).
  apply preserves_bind; [by apply preserves_fileWrite|intros ? ? ? _].
  apply preserves_bind; [by apply preserves_fileWrite|intros ? ? ? _].
  apply preserves_bind; [by apply preserves_osCreate|].
  intros fsA y fsB Hc. apply osCreate_inr in Hc as (-> & _ & _).
  repeat (apply preserves_bind; [by apply preserves_fprintf| intros ? ? ? _]).
  apply preserves_ret.
Qed.

(** The failure of [os.Create(path + ".txt")] after the key file is written. *)
Lemma saveIdentity_info_fails (fs : FS) (reason : string) :
  createErr fs path = None ->
  writeErr (<[path := []]> fs) path (X25519Private identity) = None ->
  writeErr (<[path := X25519Private identity]> fs) path (Ed25519Seed identity) = None ->
  createErr (<[path := X25519Private identity ++ Ed25519Seed identity]> fs)
    (path ++ ".txt")%string = Some reason ->
  save fs = (inl ("open " ++ (path ++ ".txt") ++ ": " ++ reason)%string,
             <[path := X25519Private identity ++ Ed25519Seed identity]> fs).
Proof.
  intros H1 H2 H3 H4. unfold saveIdentity.
  rewrite bind_osCreate_ok by done. lazy beta.
  rewrite bind_fileWrite_ok by done. lazy beta. rewrite app_nil_l.
  rewrite bind_fileWrite_ok by done. lazy beta zeta.
  rewrite (bind_osCreate_err _ reason) by done. done.
Qed.

End SaveCases.

(** [saveIdentity] returns [nil] exactly when [os.Create(path)], the two
    [Write]s of the key file and [os.Create(path + ".txt")] succeed: the
    errors of the [fmt.Fprintf] calls that write the report are discarded,
    so a report that could not be written, in full or in part, still counts
    as saved. *)
Theorem saveIdentity_report_errors_ignored (createErr : FS -> string -> option string)
    (writeErr : FS -> string -> list Z -> option (nat * string))
    (hexEncode b64Encode b32Encode : list Z -> string)
    (identity : Identity) (path : string) (fs : FS) :
  fst (saveIdentity createErr writeErr hexEncode b64Encode b32Encode identity path fs)
    = inr tt <->
  createErr fs path = None /\
  writeErr (<[path := []]> fs) path (X25519Private identity) = None /\
  writeErr (<[path := X25519Private identity]> fs) path (Ed25519Seed identity) = None /\
  createErr (<[path := X25519Private identity ++ Ed25519Seed identity]> fs)
    (path ++ ".txt")%string = None.
Proof.
  unfold saveIdentity.
  destruct (createErr fs path) as [r1|] eqn:E1.
  { rewrite (bind_osCreate_err _ _ r1) by done.
    split; [discriminate|intros [H _]; discriminate]. }
  rewrite bind_osCreate_ok by done. lazy beta.
  destruct (writeErr (<[path := []]> fs) path (X25519Private identity)) as [[n2 r2]|] eqn:E2.
  { rewrite (bind_fileWrite_err _ _ _ _ n2 r2) by done.
    split; [discriminate|intros (_ & H & _); discriminate]. }
  rewrite bind_fileWrite_ok by done. lazy beta. rewrite app_nil_l.
  destruct (writeErr (<[path := X25519Private identity]> fs) path (Ed25519Seed identity))
    as [[n3 r3]|] eqn:E3.
  { rewrite (bind_fileWrite_err _ _ _ _ n3 r3) by done.
    split; [discriminate|intros (_ & _ & H & _); discriminate]. }
  rewrite bind_fileWrite_ok by done. lazy beta zeta.
  destruct (createErr (<[path := X25519Private identity ++ Ed25519Seed identity]> fs)
              (path ++ ".txt")%string) as [r4|] eqn:E4.
  { rewrite (bind_osCreate_err _ _ r4) by done.
    split; [discriminate|intros (_ & _ & _ & H); discriminate]. }
  rewrite bind_osCreate_ok by done. lazy beta zeta.
  split; [done|intros _].
  match goal with |- fst (?m ?fs0) = _ => enough (Hm : always_ok m) end;
    [apply Hm|].
  repeat (apply always_ok_fprintf). apply always_ok_ret.
Qed.

Lemma string_bytes_range (str : string) : Forall (fun c => 0 <= c < 256) (string_bytes str).
Proof.
  unfold string_bytes. apply Forall_forall. intros c Hc.
  apply list_elem_of_In, in_map_iff in Hc as (a & <- & _).
  pose proof (Ascii.nat_ascii_bounded a). lia.
Qed.

Lemma string_bytes_toLowerString (str : string) :
  string_bytes (toLowerString str) = toLower str.
Proof.
  unfold toLowerString. apply string_bytes_bytes_string.
  unfold toLower. pose proof (string_bytes_range str) as Hr.
  induction Hr as [|c l Hc _ IH]; simpl; constructor; [|done].
  split_leb; simpl; lia.
Qed.

Lemma toLowerString_empty (str : string) : String.eqb (toLowerString str) "" = String.eqb str "".
Proof.
  destruct (String.eqb_spec str "") as [->|Hne]; [done|].
  destruct (String.eqb_spec (toLowerString str) "") as [He|]; [|done].
  exfalso. apply (f_equal string_bytes) in He.
  rewrite string_bytes_toLowerString in He. apply Hne.
  apply string_length_zero. by rewrite <- length_toLower, He.
Qed.

(** [main] parses the lowercased patterns as [parsePattern] does. *)
Lemma main_pattern (str : string) :
  (if negb (String.eqb (toLowerString str) "")
   then hexToNibbles (string_bytes (toLowerString str)) else []) = parsePattern str.
Proof.
  unfold parsePattern. rewrite toLowerString_empty, string_bytes_toLowerString.
  by destruct (String.eqb str "").
Qed.

Lemma string_app_assoc (a b c : string) : ((a ++ b) ++ c)%string = (a ++ b ++ c)%string.
Proof.
  induction a as [|x a IH]; [reflexivity|].
  change (String x ((a ++ b) ++ c) = String x (a ++ b ++ c))%string. by rewrite IH.
Qed.

Section MainProofs.

Variable createErr : FS -> string -> option string.
Variable writeErr : FS -> string -> list Z -> option (nat * string).
Variable b64Encode b32Encode : list Z -> string.
Variable search : list Z -> list Z -> Z -> SearchEnd.

Local Abbreviation main' := (main createErr writeErr b64Encode b32Encode search).
Local Abbreviation save' := (saveIdentity createErr writeErr EncodeToString b64Encode b32Encode).


(** [main] writes no file but [outPath] and [outPath.txt]; on invalid
    inputs it prints nothing to standard output and leaves the files as
    they were, and a dry run leaves them as they were too. *)
Theorem main_files (prefix postfix : string) (workers : Z) (outPath : string)
    (dryRun : bool) (fs : FS) :
  let o := main' prefix postfix workers outPath dryRun fs in
  (forall q, q <> outPath -> q <> (outPath ++ ".txt")%string -> files o !! q = fs !! q) /\
  (is_Some (validateInputs prefix postfix workers) -> files o = fs /\ stdout o = "") /\
  (dryRun = true -> files o = fs).
Proof.
  intros o. subst o. unfold main.
  destruct (validateInputs prefix postfix workers) as [err|] eqn:Ev.
  - simpl. split; [done|]. split; [done|]. done.
  - lazy beta iota zeta. split; [|split; [intros [? [=]]|]].
    + intros q Hq Hq'.
      destruct (search _ _ workers) as [identity attempts|report|]; [|done|done].
      destruct dryRun; [done|].
      destruct (save' identity outPath fs) as [r fs'] eqn:Hs.
      pose proof (saveIdentity_frame _ _ _ _ _ _ _ _ _ _ _ Hs Hq Hq') as Hq2.
      destruct r as [e|[]]; exact Hq2.
    + intros ->. by destruct (search _ _ workers).
Qed.

(** When the key file [outPath] is created and written but [outPath.txt]
    cannot be created, [main] exits with 1 and reports the [*PathError] of
    [os.Create] on standard error; the 64-byte key file stays behind, and
    [outPath.txt] is left as it was. *)
Theorem main_partial_save (prefix postfix : string) (workers : Z) (outPath : string)
    (fs : FS) (identity : Identity) (attempts : Z) (reason : string) :
  validateInputs prefix postfix workers = None ->
  search (parsePattern prefix) (parsePattern postfix) workers = Found identity attempts ->
  createErr fs outPath = None ->
  writeErr (<[outPath := []]> fs) outPath (X25519Private identity) = None ->
  writeErr (<[outPath := X25519Private identity]> fs) outPath (Ed25519Seed identity) = None ->
  createErr (<[outPath := X25519Private identity ++ Ed25519Seed identity]> fs)
    (outPath ++ ".txt")%string = Some reason ->
  let o := main' prefix postfix workers outPath false fs in
  exitCode o = Some 1 /\
  stderr o = ("Error saving identity: open " ++ outPath ++ ".txt: " ++ reason ++ nl)%string /\
  files o !! outPath = Some (X25519Private identity ++ Ed25519Seed identity) /\
  files o !! (outPath ++ ".txt")%string = fs !! (outPath ++ ".txt")%string.
Proof.
  intros Ev Es H1 H2 H3 H4 o. subst o. unfold main. rewrite Ev.
  lazy beta iota zeta. rewrite !main_pattern, Es.
  rewrite (saveIdentity_info_fails _ _ _ _ _ _ _ _ reason) by done. simpl.
  split; [done|]. split; [rewrite !string_app_assoc; reflexivity|].
  split; [by rewrite lookup_insert_eq|].
  rewrite lookup_insert_ne; [done|]. apply not_eq_sym, txt_path_ne.
Qed.

End MainProofs.

Lemma done_count_insert (ws : list WStatus) (i : nat) (st : WStatus) :
  ws !! i = Some Running ->
  done_count (<[i := st]> ws) = (done_count ws + match st with Done => 1 | _ => 0 end)%nat.
Proof.
  revert i; induction ws as [|x ws IH]; intros [|i] Hi; try discriminate.
  - injection Hi as ->. simpl. destruct st; simpl; lia.
  - simpl in Hi |- *. rewrite (IH i Hi). destruct x; simpl; lia.
Qed.

Lemma length_deriveAddress_address (sha256 : list Z -> list Z) (xpub epub : list Z) :
  length (snd (deriveAddress sha256 xpub epub)) = 16%nat.
Proof. unfold deriveAddress. cbn -[go_copy zeros copy_into slice]. apply length_go_copy. Qed.

Lemma length_makeIdentity_address (sha256 scalarBaseMult ed25519Public : list Z -> list Z)
    (randBuf : list Z) :
  length (Address (makeIdentity sha256 scalarBaseMult ed25519Public randBuf)) = 16%nat.
Proof.
  pose proof (makeIdentity_fields sha256 scalarBaseMult ed25519Public randBuf) as H.
  cbv zeta in H. apply (f_equal snd) in H. cbn [snd] in H.
  rewrite <- H. apply length_deriveAddress_address.
Qed.

Lemma nibbleAt_some (addr : list Z) (k : nat) :
  length addr = 16%nat -> (k < 32)%nat -> is_Some (nibbleAt addr (Z.of_nat k)).
Proof.
  intros Hlen Hk. unfold nibbleAt.
  assert (Hq : Z.quot (Z.of_nat k) 2 = Z.of_nat (k / 2)).
  { rewrite Z.quot_div_nonneg by lia. by rewrite Nat2Z.inj_div. }
  rewrite Hq, Nat2Z.id.
  destruct (Z.ltb_spec (Z.of_nat (k / 2)) 0) as [Hneg|_]; [lia|].
  destruct (lookup_lt_is_Some_2 addr (k / 2)) as [b Hb].
  { rewrite Hlen. apply Nat.Div0.div_lt_upper_bound. lia. }
  rewrite Hb. by destruct (Z.rem (Z.of_nat k) 2 =? 0).
Qed.

(** On a 16-byte address and patterns of at most 32 nibbles [matchesPattern]
    never indexes out of range. *)
Lemma matchesPattern_total (prefixNibbles postfixNibbles addr : list Z) :
  length addr = 16%nat ->
  (length prefixNibbles <= 32)%nat -> (length postfixNibbles <= 32)%nat ->
  is_Some (matchesPattern prefixNibbles postfixNibbles addr).
Proof.
  intros Hlen Hp Hs. unfold matchesPattern.
  set (g := fun start k => default 0 (nibbleAt addr (start + Z.of_nat k))).
  assert (Hg : forall start k, (0 <= start)%Z -> (Z.to_nat start + k < 32)%nat ->
            nibbleAt addr (start + Z.of_nat k) = Some (g start k)).
  { intros start k H0 Hk. subst g. simpl.
    replace (start + Z.of_nat k) with (Z.of_nat (Z.to_nat start + k)) by lia.
    destruct (nibbleAt_some addr (Z.to_nat start + k)) as [x ->]; [done|lia|done]. }
  destruct (nibbleLoop_spec addr prefixNibbles 0 (g 0) 0 (length prefixNibbles))
    as (r1 & Hr1 & _); [lia|intros k Hk; apply Hg; lia|].
  set (n := length postfixNibbles).
  destruct (nibbleLoop_spec addr postfixNibbles (Z.of_nat (length addr) * 2 - Z.of_nat n)
              (g (Z.of_nat (length addr) * 2 - Z.of_nat n)) 0 n)
    as (r2 & Hr2 & _); [lia|intros k Hk; apply Hg; lia|].
  destruct (0 <? length prefixNibbles)%nat; [rewrite Hr1; destruct r1|];
    destruct (0 <? n)%nat; eauto.
Qed.

Section Pool.

Variable sha256 scalarBaseMult ed25519Public : list Z -> list Z.
Variable prefixNibbles postfixNibbles : list Z.

Local Abbreviation workerIter' := (workerIter sha256 scalarBaseMult ed25519Public prefixNibbles postfixNibbles).
Local Abbreviation step' := (step sha256 scalarBaseMult ed25519Public prefixNibbles postfixNibbles).
Local Abbreviation reachable' := (reachable sha256 scalarBaseMult ed25519Public prefixNibbles postfixNibbles).
Local Abbreviation makeIdentity' := (makeIdentity sha256 scalarBaseMult ed25519Public).

Local Abbreviation published' := (published sha256 scalarBaseMult ed25519Public prefixNibbles postfixNibbles).

Lemma workerIter_cases (draw : option (list Z)) (s s' : Shared) (r : WorkerStep) :
  workerIter' draw s = (s', r) ->
  found s' = found s /\
  (r = WReturn true -> exists randBuf,
     resultChan s' = Some (makeIdentity' randBuf) /\
     matchesPattern prefixNibbles postfixNibbles (Address (makeIdentity' randBuf)) = Some true) /\
  (r = WPanic -> exists randBuf,
     matchesPattern prefixNibbles postfixNibbles (Address (makeIdentity' randBuf)) = None).
Proof.
  unfold workerIter. destruct (Z.eqb_spec (found s) 1) as [Hf|Hf].
  - intros [= <- <-]. split; [done|]. split; discriminate.
  - destruct draw as [randBuf|]; [|intros [= <- <-]; split; [done|]; split; discriminate].
    destruct (matchesPattern _ _ _) as [[|]|] eqn:Em.
    + unfold trySend, addAttempt; simpl. destruct (resultChan s) as [c|].
      * intros [= <- <-]. split; [done|]. split; discriminate.
      * intros [= <- <-]. split; [done|]. split; [|discriminate]. intros _. eauto.
    + intros [= <- <-]. split; [done|]. split; discriminate.
    + intros [= <- <-]. split; [done|]. split; [discriminate|]. eauto.
Qed.

Definition pool_inv (n : nat) (w : World) : Prop :=
  length (workers w) = n /\
  (length (accepted w) <= done_count (workers w))%nat /\
  Forall published' (accepted w) /\
  found (shared w) = match coord w with CJoin _ | CReturned _ => 1 | _ => 0 end.

Lemma pool_inv_reachable (n : nat) (w : World) :
  reachable' (initWorld n) w -> pool_inv n w.
Proof.
  induction 1 as [|w1 w2 _ IH Hs].
  - unfold pool_inv, initWorld; simpl. rewrite length_replicate. split; [done|].
    split; [lia|]. split; [constructor|done].
  - destruct IH as (Hn & Hacc & Hpub & Hf).
    destruct Hs as [w i draw s' r _ Hi Hw| w v _ Hc Hv| w v _ Hc| w v _ Hc Hall];
      unfold pool_inv in *; simpl in *.
    + apply workerIter_cases in Hw as (Hf' & Hsent & _).
      rewrite length_insert, done_count_insert by done. split; [done|].
      destruct r as [|[|]| |]; simpl.
      * rewrite length_app; simpl. split; [lia|].
        split; [by rewrite app_nil_r|congruence].
      * destruct (Hsent eq_refl) as (randBuf & Hch & Hm). rewrite Hch.
        rewrite length_app; simpl. split; [lia|].
        split; [apply Forall_app; split; [done|]; repeat constructor; eauto|congruence].
      * rewrite length_app; simpl. split; [lia|].
        split; [by rewrite app_nil_r|congruence].
      * rewrite length_app; simpl. split; [lia|].
        split; [by rewrite app_nil_r|congruence].
      * rewrite length_app; simpl. split; [lia|].
        split; [by rewrite app_nil_r|congruence].
    + rewrite Hc in Hf. done.
    + rewrite Hc in Hf. done.
    + rewrite Hc in Hf. done.
Qed.

Lemma no_crash_reachable (n : nat) (w : World) :
  (length prefixNibbles <= 32)%nat -> (length postfixNibbles <= 32)%nat ->
  reachable' (initWorld n) w -> Forall (fun st => st <> Crashed) (workers w).
Proof.
  intros Hp Hs. induction 1 as [|w1 w2 _ IH Hst].
  - simpl. apply Forall_replicate. discriminate.
  - destruct Hst as [w i draw s' r _ Hi Hw| w v _ _ _| w v _ _| w v _ _ _]; simpl; try done.
    apply workerIter_cases in Hw as (_ & _ & Hpanic).
    apply Forall_insert; [done|].
    destruct r; simpl; try discriminate.
    destruct (Hpanic eq_refl) as [randBuf Hm].
    destruct (matchesPattern_total prefixNibbles postfixNibbles
                (Address (makeIdentity' randBuf))) as [b Hb];
      [apply length_makeIdentity_address|done|done|].
    congruence.
Qed.

End Pool.

(** Every identity a worker delivers, and the one [main] has received from
    the channel (from its [StoreUint32] through [wg.Wait()] to its return),
    was derived from drawn random bytes and has a matching address. *)
Theorem published_identities_match (sha256 scalarBaseMult ed25519Public : list Z -> list Z)
    (prefixNibbles postfixNibbles : list Z) (n : nat) (w : World) :
  reachable sha256 scalarBaseMult ed25519Public prefixNibbles postfixNibbles (initWorld n) w ->
  Forall (published sha256 scalarBaseMult ed25519Public prefixNibbles postfixNibbles)
    (accepted w) /\
  (forall v, coord w = CStore v \/ coord w = CJoin v \/ coord w = CReturned v ->
     published sha256 scalarBaseMult ed25519Public prefixNibbles postfixNibbles v).
Proof.
  intros Hr.
  destruct (pool_inv_reachable _ _ _ _ _ n w Hr) as (_ & _ & Hpub & _).
  destruct (handoff_inv_reachable _ _ _ _ _ n w Hr) as (_ & I2 & _).
  split; [done|]. intros v Hc.
  destruct (I2 v Hc) as [rest Hacc].
  rewrite Hacc in Hpub. by inversion Hpub.
Qed.

(** The workers deliver at most one identity each in total. *)
Theorem accepted_at_most_workers (sha256 scalarBaseMult ed25519Public : list Z -> list Z)
    (prefixNibbles postfixNibbles : list Z) (n : nat) (w : World) :
  reachable sha256 scalarBaseMult ed25519Public prefixNibbles postfixNibbles (initWorld n) w ->
  (length (accepted w) <= n)%nat.
Proof.
  intros Hr. destruct (pool_inv_reachable _ _ _ _ _ n w Hr) as (Hn & Hacc & _).
  assert (Hd : forall ws, (done_count ws <= length ws)%nat).
  { induction ws as [|[] ws IH]; simpl; lia. }
  specialize (Hd (workers w)). lia.
Qed.

(** [found] is 1 exactly once [main] has executed its [StoreUint32]: no
    worker ever sets it. *)
Theorem stop_flag_only_by_main (sha256 scalarBaseMult ed25519Public : list Z -> list Z)
    (prefixNibbles postfixNibbles : list Z) (n : nat) (w : World) :
  reachable sha256 scalarBaseMult ed25519Public prefixNibbles postfixNibbles (initWorld n) w ->
  found (shared w) = match coord w with CJoin _ | CReturned _ => 1 | _ => 0 end.
Proof. intros Hr. apply (pool_inv_reachable _ _ _ _ _ n w Hr). Qed.

(** With patterns of at most 32 nibbles no worker ever indexes out of the
    address. *)
Theorem no_worker_panics (sha256 scalarBaseMult ed25519Public : list Z -> list Z)
    (prefixNibbles postfixNibbles : list Z) (n : nat) (w : World) :
  (length prefixNibbles <= 32)%nat -> (length postfixNibbles <= 32)%nat ->
  reachable sha256 scalarBaseMult ed25519Public prefixNibbles postfixNibbles (initWorld n) w ->
  Forall (fun st => st <> Crashed) (workers w).
Proof. apply no_crash_reachable. Qed.

Lemma printed_address_matches_witness :
  isHex "CAfe" = true /\ (String.length "CAfe" <= 32)%nat /\
  isHex "E" = true /\ (String.length "E" <= 32)%nat /\
  length ([202; 254] ++ zeros 13 ++ [190]) = 16%nat /\
  Forall (fun b => 0 <= b < 256) ([202; 254] ++ zeros 13 ++ [190]) /\
  (matchesPattern (parsePattern "CAfe") (parsePattern "E") ([202; 254] ++ zeros 13 ++ [190])
     = Some true <->
   toLower "CAfe" `prefix_of` string_bytes (EncodeToString ([202; 254] ++ zeros 13 ++ [190])) /\
   toLower "E" `suffix_of` string_bytes (EncodeToString ([202; 254] ++ zeros 13 ++ [190]))).
Proof.
  assert (Hh1 : isHex "CAfe" = true) by reflexivity.
  assert (Hl1 : (String.length "CAfe" <= 32)%nat) by (simpl; lia).
  assert (Hh2 : isHex "E" = true) by reflexivity.
  assert (Hl2 : (String.length "E" <= 32)%nat) by (simpl; lia).
  assert (Hn : length ([202; 254] ++ zeros 13 ++ [190]) = 16%nat) by reflexivity.
  assert (Hr : Forall (fun b => 0 <= b < 256) ([202; 254] ++ zeros 13 ++ [190]))
    by (repeat constructor; lia).
  do 6 (split; [assumption|]).
  exact (printed_address_matches "CAfe" "E" _ Hh1 Hl1 Hh2 Hl2 Hn Hr).
Defined.

Lemma printed_address_roundtrip_witness :
  length (zeros 16) = 16%nat /\ Forall (fun b => 0 <= b < 256) (zeros 16) /\ 1 <= 1 /\
  validateInputs (EncodeToString (zeros 16)) "" 1 = None /\
  (matchesPattern (parsePattern (EncodeToString (zeros 16))) [] (zeros 16) = Some true <->
   zeros 16 = zeros 16).
Proof.
  assert (Hn : length (zeros 16) = 16%nat) by reflexivity.
  assert (Hr : Forall (fun b => 0 <= b < 256) (zeros 16)) by (repeat constructor; lia).
  assert (Hw : 1 <= 1) by lia.
  do 3 (split; [assumption|]).
  exact (printed_address_roundtrip (zeros 16) (zeros 16) 1 Hn Hr Hn Hr Hw).
Defined.

Lemma main_partial_save_witness :
  validateInputs "ab" "" 1 = None /\
  (fun (_ : list Z) (_ : list Z) (_ : Z) => Found zero_identity 1)
    (parsePattern "ab") (parsePattern "") 1 = Found zero_identity 1 /\
  (fun (_ : FS) p => if String.eqb p "id.txt" then Some "is a directory"%string else None)
    ∅ "id" = None /\
  (fun (_ : FS) (_ : string) (_ : list Z) => @None (nat * string))
    (<["id" := []]> ∅) "id" (X25519Private zero_identity) = None /\
  (fun (_ : FS) (_ : string) (_ : list Z) => @None (nat * string))
    (<["id" := X25519Private zero_identity]> ∅) "id" (Ed25519Seed zero_identity) = None /\
  (fun (_ : FS) p => if String.eqb p "id.txt" then Some "is a directory"%string else None)
    (<["id" := X25519Private zero_identity ++ Ed25519Seed zero_identity]> ∅)
    ("id" ++ ".txt")%string = Some "is a directory"%string /\
  exitCode (main (fun (_ : FS) p => if String.eqb p "id.txt" then Some "is a directory"%string
                                    else None)
              (fun (_ : FS) (_ : string) (_ : list Z) => @None (nat * string))
              (fun _ => EmptyString) (fun _ => EmptyString)
              (fun (_ : list Z) (_ : list Z) (_ : Z) => Found zero_identity 1)
              "ab" "" 1 "id" false ∅) = Some 1 /\
  stderr (main (fun (_ : FS) p => if String.eqb p "id.txt" then Some "is a directory"%string
                                  else None)
              (fun (_ : FS) (_ : string) (_ : list Z) => @None (nat * string))
              (fun _ => EmptyString) (fun _ => EmptyString)
              (fun (_ : list Z) (_ : list Z) (_ : Z) => Found zero_identity 1)
              "ab" "" 1 "id" false ∅)
  = ("Error saving identity: open id.txt: is a directory" ++ nl)%string.
Proof.
  set (createErr := fun (_ : FS) p =>
         if String.eqb p "id.txt" then Some "is a directory"%string else None).
  set (writeErr := fun (_ : FS) (_ : string) (_ : list Z) => @None (nat * string)).
  set (search := fun (_ : list Z) (_ : list Z) (_ : Z) => Found zero_identity 1).
  assert (H1 : validateInputs "ab" "" 1 = None) by reflexivity.
  assert (H2 : search (parsePattern "ab") (parsePattern "") 1 = Found zero_identity 1)
    by reflexivity.
  assert (H3 : createErr ∅ "id" = None) by reflexivity.
  assert (H4 : writeErr (<["id" := []]> ∅) "id" (X25519Private zero_identity) = None)
    by reflexivity.
  assert (H5 : writeErr (<["id" := X25519Private zero_identity]> ∅) "id"
                 (Ed25519Seed zero_identity) = None) by reflexivity.
  assert (H6 : createErr (<["id" := X25519Private zero_identity ++ Ed25519Seed zero_identity]> ∅)
                 ("id" ++ ".txt")%string = Some "is a directory"%string) by reflexivity.
  pose proof (main_partial_save createErr writeErr (fun _ => EmptyString) (fun _ => EmptyString)
                search "ab" "" 1 "id" ∅ zero_identity 1 "is a directory" H1 H2 H3 H4 H5 H6) as T.
  do 6 (split; [assumption|]).
  split; [exact (proj1 T)|exact (proj1 (proj2 T))].
Defined.

Lemma published_identities_match_witness :
  reachable stub_hash stub_key stub_key [0] [] (initWorld 2) run_store /\
  coord run_store = CStore run_id0 /\
  published stub_hash stub_key stub_key [0] [] run_id0.
Proof.
  assert (H : reachable stub_hash stub_key stub_key [0] [] (initWorld 2) run_store)
    by apply run_store_reach.
  split; [exact H|]. split; [reflexivity|].
  exact (proj2 (published_identities_match stub_hash stub_key stub_key [0] [] 2 _ H)
           run_id0 (or_introl eq_refl)).
Defined.

Lemma accepted_at_most_workers_witness :
  reachable stub_hash stub_key stub_key [0] [] (initWorld 2) run_second /\
  length (accepted run_second) = 2%nat /\
  (length (accepted run_second) <= 2)%nat.
Proof.
  assert (H : reachable stub_hash stub_key stub_key [0] [] (initWorld 2) run_second)
    by apply run_second_reach.
  split; [exact H|]. split; [reflexivity|].
  exact (accepted_at_most_workers stub_hash stub_key stub_key [0] [] 2 _ H).
Defined.

Lemma stop_flag_only_by_main_witness :
  reachable stub_hash stub_key stub_key [0] [] (initWorld 2) run_join /\
  found (shared run_join) = 1 /\
  found (shared run_join) =
    match coord run_join with CJoin _ | CReturned _ => 1 | _ => 0 end.
Proof.
  assert (H : reachable stub_hash stub_key stub_key [0] [] (initWorld 2) run_join)
    by apply run_join_reach.
  split; [exact H|]. split; [reflexivity|].
  exact (stop_flag_only_by_main stub_hash stub_key stub_key [0] [] 2 _ H).
Defined.

Lemma no_worker_panics_witness :
  (length [0] <= 32)%nat /\ (length (@nil Z) <= 32)%nat /\
  reachable stub_hash stub_key stub_key [0] [] (initWorld 2) run_second /\
  Forall (fun st => st <> Crashed) (workers run_second).
Proof.
  assert (Hp : (length [0] <= 32)%nat) by (simpl; lia).
  assert (Hs : (length (@nil Z) <= 32)%nat) by (simpl; lia).
  assert (H : reachable stub_hash stub_key stub_key [0] [] (initWorld 2) run_second)
    by apply run_second_reach.
  do 3 (split; [assumption|]).
  exact (no_worker_panics stub_hash stub_key stub_key [0] [] 2 _ Hp Hs H).
Defined.

(** [formatNumber] moves to "M" only at 1000000: the counts 999995 to
    999999 are all shown as "1000.00K". *)
Theorem formatNumber_K_rollover (n : Z) :
  999995 <= n < 1000000 -> formatNumber n = "1000.00K"%string.
Proof.
  intros Hn.
  assert (Hc : n = 999995 \/ n = 999996 \/ n = 999997 \/ n = 999998 \/ n = 999999) by lia.
  destruct Hc as [->|[->|[->|[->| ->]]]]; vm_compute; reflexivity.
Qed.

Lemma formatNumber_K_rollover_witness :
  999995 <= 999997 < 1000000 /\ formatNumber 999997 = "1000.00K"%string.
Proof.
  assert (H : 999995 <= 999997 < 1000000) by lia.
  split; [exact H|]. exact (formatNumber_K_rollover 999997 H).
Defined.
